(** * Zagro: a shallow embedding of the event emitter of [zagro.go]

    The emitter is modelled sequentially: every method of the Go type takes
    [e.mu] for its whole body, and [Emit] releases it before the first
    callback runs, so a single-threaded run never blocks and the mutex has no
    effect on the values computed.  Callbacks are the one place where user
    code runs inside the emitter; they may call back into it, so they are
    represented as programs over the emitter's methods and interpreted with
    a bound on the nesting depth of [Emit].  Callbacks that panic and calls
    from several goroutines at once are outside the model. *)

From Stdlib Require Import ZArith Lia.
From stdpp Require Import base gmap list strings fin_maps.

Local Open Scope Z_scope.

(** ** Machine integers

    Go's [int] is taken to be 64 bits wide (the amd64 and arm64 ports).
    Signed overflow wraps around in Go. *)

Definition int_min : Z := - 2 ^ 63.
Definition int_max : Z := 2 ^ 63 - 1.

Definition int_wrap (z : Z) : Z := (z + 2 ^ 63) mod 2 ^ 64 - 2 ^ 63.

(** [x++] on an [int]. *)
Definition int_incr (x : Z) : Z := int_wrap (x + 1).

(** ** Data model *)

(** [ZagroMessage]: the payload is opaque to the emitter; a number stands
    for the dynamic value held in [Data].  The emitter hands the pointer it
    was given to every callback and never reads or writes through it. *)
Record ZagroMessage := { Data : Z }.

(** Go's [error]: [None] is [nil], [Some s] is [errors.New(s)]. *)
Definition error := option string.

(** User code.  A callback body is a finite tree of calls on the emitter it
    closes over; the continuation of each call receives what the method
    returns.  [DoLoad]/[DoStore] give closures their own mutable variables
    (the [received] map and the [onceCalled] counter of the tests). *)
Inductive prog : Type :=
| Done
| DoOn (event : string) (cb : ZagroMessage → prog) (k : Z → error → prog)
| DoOnce (event : string) (cb : ZagroMessage → prog) (k : Z → error → prog)
| DoEmit (event : string) (msg : ZagroMessage) (k : prog)
| DoOff (event : string) (id : Z) (k : prog)
| DoRemoveAll (event : string) (k : prog)
| DoCount (event : string) (k : Z → prog)
| DoCountAll (k : Z → prog)
| DoLoad (var : string) (k : Z → prog)
| DoStore (var : string) (v : Z) (k : prog).

(** [ZagroCallback]: either a function value handed in by the user, or the
    closure [wrapper] built by [Once], which captures [event], [cb] and the
    local variable [id] (by reference: [cell] is the address of [id]). *)
Inductive ZagroCallback : Type :=
| UserFn (body : ZagroMessage → prog)
| OnceFn (event : string) (cell : nat) (cb : ZagroMessage → prog).

Record listener := { id : Z; callback : ZagroCallback }.

Record ZagroOptions := { MaxListeners : Z }.

(** The [Zagro] struct without its mutex. *)
Record Zagro := {
  events : gmap string (list listener);
  nextID : Z;
  maxListeners : Z
}.

(** ** Methods that do not run callbacks *)

(** [NewZagro(opts ...ZagroOptions)]: only [opts[0]] is read. *)
Definition NewZagro (opts : list ZagroOptions) : Zagro :=
  {| events := ∅;
     nextID := 0;
     maxListeners := match opts with
                     | [] => 0
                     | o :: _ => MaxListeners o
                     end |}.

(** [e.events[event]]: a missing key reads as the nil slice. *)
Definition listeners_of (event : string) (e : Zagro) : list listener :=
  default [] (events e !! event).

(** [len(s)] as an [int]; the length of a slice always fits. *)
Definition len {A} (l : list A) : Z := Z.of_nat (length l).

Definition limit_error (event : string) : string :=
  "max listeners exceeded for event: " +:+ event.

Definition On (event : string) (cb : ZagroCallback) (e : Zagro)
  : (Z * error) * Zagro :=
  if (0 <? maxListeners e) && (maxListeners e <=? len (listeners_of event e))
  then ((0, Some (limit_error event)), e)
  else
    let e1 := {| events := events e;
                 nextID := int_incr (nextID e);
                 maxListeners := maxListeners e |} in
    let l := {| id := nextID e1; callback := cb |} in
    let e2 := {| events := <[event := listeners_of event e1 ++ [l]]> (events e1);
                 nextID := nextID e1;
                 maxListeners := maxListeners e1 |} in
    ((id l, None), e2).

(** The [for i, l := range listeners] loop of [Off]: index of the first
    listener whose id matches. *)
Fixpoint find_id (target : Z) (ls : list listener) : option nat :=
  match ls with
  | [] => None
  | l :: rest =>
      if Z.eqb (id l) target then Some O
      else option_map S (find_id target rest)
  end.

(** [append(listeners[:i], listeners[i+1:]...)].  The Go expression reuses
    the backing array of [listeners]; no other slice of that array is live
    ([Emit] copies the callbacks into a slice of its own), so the value
    semantics below is what every reader of [e.events] sees. *)
Definition cut {A} (i : nat) (l : list A) : list A :=
  take i l ++ drop (S i) l.

Definition Off (event : string) (target : Z) (e : Zagro) : Zagro :=
  match events e !! event with
  | None => e
  | Some listeners =>
      let e1 :=
        match find_id target listeners with
        | Some i =>
            {| events := <[event := cut i listeners]> (events e);
               nextID := nextID e;
               maxListeners := maxListeners e |}
        | None => e
        end in
      if len (listeners_of event e1) =? 0
      then {| events := delete event (events e1);
              nextID := nextID e1;
              maxListeners := maxListeners e1 |}
      else e1
  end.

Definition RemoveAll (event : string) (e : Zagro) : Zagro :=
  {| events := delete event (events e);
     nextID := nextID e;
     maxListeners := maxListeners e |}.

(** [Count] and [CountAll] return the emitter along with the result, as
    every method does, so that what they leave untouched can be stated. *)
Definition Count (event : string) (e : Zagro) : Z * Zagro :=
  (len (listeners_of event e), e).

(** [for _, listeners := range e.events { count += len(listeners) }]; Go
    visits the keys in an unspecified order, [map_fold] in some order. *)
Definition CountAll (e : Zagro) : Z * Zagro :=
  (map_fold (λ (_ : string) (listeners : list listener) (count : Z),
             count + len listeners) 0 (events e), e).

(** The test [On] makes before it registers:
    [e.maxListeners > 0 && len(e.events[event]) >= e.maxListeners]. *)
Definition at_limit (event : string) (e : Zagro) : bool :=
  (0 <? maxListeners e) && (maxListeners e <=? len (listeners_of event e)).

(** There is room for [n] more listeners on the event. *)
Definition room_for (n : Z) (event : string) (e : Zagro) : Prop :=
  maxListeners e ≤ 0 ∨ len (listeners_of event e) + n ≤ maxListeners e.

(** The sum of [Count] over a list of event names. *)
Definition total_over (e : Zagro) (names : list string) : Z :=
  foldr (λ event acc, fst (Count event e) + acc) 0 names.

(** [On] called for each callback of a list in turn, on one event; the
    errors returned, in order. *)
Fixpoint On_all (event : string) (cbs : list ZagroCallback) (e : Zagro)
  : list error * Zagro :=
  match cbs with
  | [] => ([], e)
  | cb :: rest =>
      let r := On event cb e in
      let rs := On_all event rest (snd r) in
      (snd (fst r) :: fst rs, snd rs)
  end.

(** ** The world around the emitter *)

(** Ghost record of what a run did: [Issued i] when a registration returned
    id [i] with a nil error, [Invoke d cb msg] when the loop of an [Emit]
    running at nesting depth [d] called [cb(msg)]. *)
Inductive entry : Type :=
| Issued (i : Z)
| Invoke (depth : nat) (cb : ZagroCallback) (msg : ZagroMessage).

Record World := {
  em : Zagro;
  cells : list Z;        (* the [id] variables of the calls of [Once], by address *)
  vars : gmap string Z;  (* variables of the user's closures *)
  trace : list entry
}.

Definition with_em (e : Zagro) (w : World) : World :=
  {| em := e; cells := cells w; vars := vars w; trace := trace w |}.

Definition with_cells (cs : list Z) (w : World) : World :=
  {| em := em w; cells := cs; vars := vars w; trace := trace w |}.

Definition with_vars (vs : gmap string Z) (w : World) : World :=
  {| em := em w; cells := cells w; vars := vs; trace := trace w |}.

Definition record (x : entry) (w : World) : World :=
  {| em := em w; cells := cells w; vars := vars w; trace := trace w ++ [x] |}.

Definition fresh (opts : list ZagroOptions) : World :=
  {| em := NewZagro opts; cells := []; vars := ∅; trace := [] |}.

(** [Once]: [var id int] is allocated (zero), the wrapper closes over it,
    and [id, err = e.On(event, wrapper)] stores into it. *)
Definition Once (event : string) (cb : ZagroMessage → prog) (w : World)
  : (Z * error) * World :=
  let c := length (cells w) in
  let w0 := with_cells (cells w ++ [0]) w in
  let wrapper := OnceFn event c cb in
  let '((i, err), e1) := On event wrapper (em w0) in
  ((i, err), with_cells (<[c := i]> (cells w0)) (with_em e1 w0)).

Definition note_issue (r : Z * error) (w : World) : World :=
  match snd r with
  | None => record (Issued (fst r)) w
  | Some _ => w
  end.

(** How a run ends: the call returned, or the nesting of [Emit] went deeper
    than the bound (the world is the one reached at that point). *)
Inductive outcome := Finished | OutOfFuel.

Section Dispatch.
(** [run d p w]: run the user code [p], inside [d] nested dispatches. *)
Variable run : nat → prog → World → outcome * World.

(** [cb(msg)] for the two kinds of function values.  The wrapper is
    [func(msg) { e.Off(event, id); cb(msg) }], reading [id] when called. *)
Definition invoke (d : nat) (cb : ZagroCallback) (msg : ZagroMessage)
    (w : World) : outcome * World :=
  match cb with
  | UserFn body => run (S d) (body msg) w
  | OnceFn event c body =>
      let i := default 0 (cells w !! c) in
      run (S d) (body msg) (with_em (Off event i (em w)) w)
  end.

(** [for _, cb := range callbacks { cb(msg) }] *)
Fixpoint dispatch (d : nat) (callbacks : list ZagroCallback)
    (msg : ZagroMessage) (w : World) : outcome * World :=
  match callbacks with
  | [] => (Finished, w)
  | cb :: rest =>
      match invoke d cb msg (record (Invoke d cb msg) w) with
      | (Finished, w1) => dispatch d rest msg w1
      | stuck => stuck
      end
  end.

(** [Emit]: the callbacks are copied out of [e.events[event]] first. *)
Definition Emit (d : nat) (event : string) (msg : ZagroMessage)
    (w : World) : outcome * World :=
  let callbacks := callback <$> listeners_of event (em w) in
  dispatch d callbacks msg w.
End Dispatch.

(** The interpreter of user code.  [fuel] bounds how deep [Emit] may nest
    below this point; [d] is the number of dispatches already around it. *)
Fixpoint exec (fuel : nat) : nat → prog → World → outcome * World :=
  fix go (d : nat) (p : prog) (w : World) {struct p} : outcome * World :=
    match p with
    | Done => (Finished, w)
    | DoOn event cb k =>
        let r := On event (UserFn cb) (em w) in
        go d (k (fst (fst r)) (snd (fst r)))
             (note_issue (fst r) (with_em (snd r) w))
    | DoOnce event cb k =>
        let r := Once event cb w in
        go d (k (fst (fst r)) (snd (fst r))) (note_issue (fst r) (snd r))
    | DoEmit event msg k =>
        match fuel with
        | O => (OutOfFuel, w)
        | S fuel' =>
            match Emit (exec fuel') d event msg w with
            | (Finished, w1) => go d k w1
            | stuck => stuck
            end
        end
    | DoOff event i k => go d k (with_em (Off event i (em w)) w)
    | DoRemoveAll event k => go d k (with_em (RemoveAll event (em w)) w)
    | DoCount event k =>
        let r := Count event (em w) in go d (k (fst r)) (with_em (snd r) w)
    | DoCountAll k =>
        let r := CountAll (em w) in go d (k (fst r)) (with_em (snd r) w)
    | DoLoad x k => go d (k (default 0 (vars w !! x))) w
    | DoStore x v k => go d k (with_vars (<[x := v]> (vars w)) w)
    end.

(** A state of the emitter is reachable when some client program, started
    on a freshly constructed emitter, gets to it. *)
Definition reachable (w : World) : Prop :=
  ∃ opts fuel p o, exec fuel 0 p (fresh opts) = (o, w).

(** A client that registers a listener on ["e"] and removes it again, [n]
    times over, before going on with [k]. *)
Definition churn_step (k : prog) : prog :=
  DoOn "e" (λ _, Done) (λ _ _, DoRemoveAll "e" k).

Definition churn (n : N) (k : prog) : prog := N.iter n churn_step k.

(** The ids handed out so far, oldest first. *)
Definition issued (w : World) : list Z :=
  omap (λ x, match x with Issued i => Some i | Invoke _ _ _ => None end)
       (trace w).

(** The calls made by the loops of the dispatches at depth [d]. *)
Definition invoked_at (d : nat) (t : list entry)
  : list (ZagroCallback * ZagroMessage) :=
  omap (λ x, match x with
             | Invoke d' cb msg => if Nat.eqb d' d then Some (cb, msg) else None
             | Issued _ => None
             end) t.

(** An entry that no dispatch shallower than depth [d] wrote. *)
Definition deep (d : nat) (x : entry) : Prop :=
  match x with
  | Invoke d' _ _ => (d ≤ d')%nat
  | Issued _ => True
  end.

(** What the loop of an [Emit] is to call: each callback with the message. *)
Definition calls (callbacks : list ZagroCallback) (msg : ZagroMessage)
  : list (ZagroCallback * ZagroMessage) :=
  (λ cb, (cb, msg)) <$> callbacks.

(** A client that registers the functions of a list on one event, in
    order, and goes on with [k]. *)
Definition register_all (event : string) (fs : list (ZagroMessage → prog))
    (k : prog) : prog :=
  foldr (λ f p, DoOn event f (λ _ _, p)) k fs.

(** [x++] on a variable of the user's. *)
Definition bump (x : string) (k : prog) : prog :=
  DoLoad x (λ v, DoStore x (v + 1) k).

(** The two loops of [TestMultipleEvents]: on each event name a listener
    that counts under that name, then one [Emit] per event name. *)
Definition register_each (names : list string) (k : prog) : prog :=
  foldr (λ name p, DoOn name (λ _, bump name Done) (λ _ _, p)) k names.

Definition emit_each (names : list (string * Z)) (k : prog) : prog :=
  foldr (λ name p, DoEmit (fst name) {| Data := snd name |} p) k names.

(** Is the entry a call of the once-wrapper whose [id] variable is cell [c]? *)
Definition calls_once (c : nat) (x : entry) : bool :=
  match x with
  | Invoke _ (OnceFn _ c' _) _ => Nat.eqb c' c
  | _ => false
  end.

(** Two once-listeners on one event, the first of which emits the event
    again from its callback; then one [Emit]:
<<
    em.Once("e", func(m *ZagroMessage) { em.Emit("e", m) })
    em.Once("e", func(m *ZagroMessage) { onceCalled++ })
    em.Emit("e", &ZagroMessage{})
>> *)
Definition reentrant_once : prog :=
  DoOnce "e" (λ m, DoEmit "e" m Done) (λ _ _,
  DoOnce "e" (λ _, bump "onceCalled" Done) (λ _ _,
  DoEmit "e" {| Data := 0 |} Done)).

(** The second half of [TestEventEmitter]: a once-listener and two
    [Emit]s in a row. *)
Definition once_then_two_emits : prog :=
  DoOnce "event2" (λ _, bump "onceCalled" Done) (λ _ _,
  DoEmit "event2" {| Data := 0 |} (
  DoEmit "event2" {| Data := 0 |} Done)).

(** [TestEventEmitter] of [zagro_test.go], with what it checks stored in
    variables: the error of the third [On], and the five counts. *)
Definition TestEventEmitter : prog :=
  DoOn "event1" (λ _, bump "h1" Done) (λ id1 _,
  DoOn "event1" (λ _, bump "h2" Done) (λ _ _,
  DoOn "event1" (λ _, bump "h3" Done) (λ _ err,
  DoStore "third_failed" (match err with Some _ => 1 | None => 0 end) (
  DoEmit "event1" {| Data := 0 |} (
  DoEmit "event1" {| Data := 0 |} (
  DoOnce "event2" (λ _, bump "onceCalled" Done) (λ _ _,
  DoEmit "event2" {| Data := 0 |} (
  DoEmit "event2" {| Data := 0 |} (
  DoCount "event1" (λ n1, DoStore "count1" n1 (
  DoCount "event2" (λ n2, DoStore "count2" n2 (
  DoCountAll (λ n, DoStore "countAll" n (
  DoOff "event1" id1 (
  DoCount "event1" (λ n3, DoStore "afterOff" n3 (
  DoRemoveAll "event1" (
  DoCount "event1" (λ n4, DoStore "afterRemoveAll" n4 Done)))))))))))))))))))).

(** A callback that does nothing, and the world after a client has
    registered it twice on ["e"] under a given limit. *)
Definition noop : ZagroMessage → prog := λ _, Done.

Definition two_on_e (limit : Z) : World :=
  snd (exec 0 0 (register_all "e" [noop; noop] Done)
         (fresh [{| MaxListeners := limit |}])).

(** A callback that replaces every listener of ["e"] by a new one, and a
    client that registers it before another listener and emits twice. *)
Definition swap_listeners : ZagroMessage → prog :=
  λ _, DoRemoveAll "e" (DoOn "e" (λ _, bump "late" Done) (λ _ _, Done)).

Definition count_second : ZagroMessage → prog := λ _, bump "second" Done.

Definition mutating_client : prog :=
  DoOn "e" swap_listeners (λ _ _,
  DoOn "e" count_second (λ _ _,
  DoEmit "e" {| Data := 7 |} (
  DoEmit "e" {| Data := 8 |} Done))).

(** The cell a callback reads its id from, when it is a once-wrapper. *)
Definition cell_of (cb : ZagroCallback) : option nat :=
  match cb with
  | OnceFn _ c _ => Some c
  | UserFn _ => None
  end.

(** How many times the wrapper of cell [c] has been called. *)
Definition once_count (c : nat) (t : list entry) : nat :=
  length (filter (λ x, calls_once c x = true) t).

(** The world after a client has registered [count_second] through
    [Once] on ["e"]. *)
Definition one_once : World :=
  snd (exec 0 0 (DoOnce "e" count_second (λ _ _, Done)) (fresh [])).

(** The world after a client has registered, on ["e"], a listener through
    [On], one through [Once] and another through [On]. *)
Definition mixed_on_e : World :=
  snd (exec 0 0 (DoOn "e" count_second (λ _ _,
                 DoOnce "e" noop (λ _ _,
                 DoOn "e" noop (λ _ _, Done)))) (fresh [])).

(** ** Invariants of the registry *)

(** No key of the map holds an empty slice. *)
Definition registry_ok (e : Zagro) : Prop :=
  ∀ event ls, events e !! event = Some ls → ls ≠ [].

(** The counter and the ids handed out: the [k]-th registration (from 0)
    got [int_wrap (k + 1)], the counter is the wrapped number of
    registrations, and every listener in the map got its id that way. *)
Record ids_ok (w : World) : Prop := {
  ids_counter : nextID (em w) = int_wrap (len (issued w));
  ids_issued : ∀ k : nat, (k < length (issued w))%nat →
               issued w !! k = Some (int_wrap (Z.of_nat k + 1));
  ids_live : ∀ event l, l ∈ listeners_of event (em w) → id l ∈ issued w
}.

(** Every once-wrapper in the map sits under the event it captured, and
    the [id] variable it captured holds the id of its listener. *)
Definition once_ok (w : World) : Prop :=
  ∀ event l ev c f,
    l ∈ listeners_of event (em w) → callback l = OnceFn ev c f →
    ev = event ∧ cells w !! c = Some (id l).

(** No two listeners in the map have the same id. *)
Record live_ids_ok (e : Zagro) : Prop := {
  live_nodup : ∀ event, NoDup (id <$> listeners_of event e);
  live_apart : ∀ ev1 ev2 l1 l2,
    l1 ∈ listeners_of ev1 e → l2 ∈ listeners_of ev2 e → id l1 = id l2 →
    ev1 = ev2
}.

(** Cell [c] has been allocated, and every listener in the map that holds
    the wrapper of cell [c] satisfies [A] (of its event, of itself and of
    what the cell holds). *)
Definition holders_in (c : nat) (A : string → listener → option Z → Prop)
    (w : World) : Prop :=
  (c < length (cells w))%nat ∧
  ∀ event l, l ∈ listeners_of event (em w) → cell_of (callback l) = Some c →
             A event l (cells w !! c).

(** The only listener that can hold the wrapper of cell [c] is the one of
    the call [Once(event, f)] that allocated the cell. *)
Definition pinned (c : nat) (event : string) (f : ZagroMessage → prog)
  : World → Prop :=
  holders_in c (λ event' l v,
    event' = event ∧ callback l = OnceFn event c f ∧ v = Some (id l)).

(** The wrapper of cell [c] is in the map no more. *)
Definition gone (c : nat) : World → Prop :=
  holders_in c (λ _ _ _, False).

(** What it takes for a property of the world to be kept by every run
    inside [d0] dispatches or more: every method call keeps it, the
    callbacks in the map of a world that has it are all [found], and a
    dispatch at depth [d0] or more that calls a [found] callback keeps it. *)
Definition step_closed (P : World → Prop) (found : ZagroCallback → Prop)
    (d0 : nat) : Prop :=
  (∀ w event cb, P w →
     P (note_issue (fst (On event (UserFn cb) (em w)))
                   (with_em (snd (On event (UserFn cb) (em w))) w))) ∧
  (∀ w event cb, P w →
     P (note_issue (fst (Once event cb w)) (snd (Once event cb w)))) ∧
  (∀ w event i, P w → P (with_em (Off event i (em w)) w)) ∧
  (∀ w event, P w → P (with_em (RemoveAll event (em w)) w)) ∧
  (∀ w x v, P w → P (with_vars (<[x := v]> (vars w)) w)) ∧
  (∀ w event, P w → Forall found (callback <$> listeners_of event (em w))) ∧
  (∀ w d cb msg, (d0 ≤ d)%nat → found cb → P w →
     P (record (Invoke d cb msg) w)).

(** User code that never calls [Emit] itself (the callbacks it registers
    are not looked at: nothing in it can run them). *)
Inductive emit_free : prog → Prop :=
| ef_Done : emit_free Done
| ef_On event cb k : (∀ i err, emit_free (k i err)) → emit_free (DoOn event cb k)
| ef_Once event cb k : (∀ i err, emit_free (k i err)) → emit_free (DoOnce event cb k)
| ef_Off event i k : emit_free k → emit_free (DoOff event i k)
| ef_RemoveAll event k : emit_free k → emit_free (DoRemoveAll event k)
| ef_Count event k : (∀ n, emit_free (k n)) → emit_free (DoCount event k)
| ef_CountAll k : (∀ n, emit_free (k n)) → emit_free (DoCountAll k)
| ef_Load x k : (∀ v, emit_free (k v)) → emit_free (DoLoad x k)
| ef_Store x v k : emit_free k → emit_free (DoStore x v k).

Definition body_of (cb : ZagroCallback) : ZagroMessage → prog :=
  match cb with
  | UserFn body => body
  | OnceFn _ _ body => body
  end.

(** User code that makes no call on the emitter at all: it only reads and
    writes its own variables. *)
Inductive emitter_free : prog → Prop :=
| nf_Done : emitter_free Done
| nf_Load x k : (∀ v, emitter_free (k v)) → emitter_free (DoLoad x k)
| nf_Store x v k : emitter_free k → emitter_free (DoStore x v k).

(** Is the listener's callback one the user handed to [On] (not a
    once-wrapper)? *)
Definition plain (l : listener) : bool :=
  match callback l with
  | UserFn _ => true
  | OnceFn _ _ _ => false
  end.

(** The calls made by the loops of all dispatches, at any depth. *)
Definition invoked (t : list entry) : list (ZagroCallback * ZagroMessage) :=
  omap (λ x, match x with
             | Invoke _ cb msg => Some (cb, msg)
             | Issued _ => None
             end) t.

(** [TestMultipleEvents] of [zagro_test.go]: one listener on each of five
    events, each event emitted once. *)
Definition TestMultipleEvents : prog :=
  register_each ["event0"; "event1"; "event2"; "event3"; "event4"]
    (emit_each [("event0", 0); ("event1", 1); ("event2", 2); ("event3", 3);
                ("event4", 4)] Done).

(** ** Basic facts *)

Lemma with_em_id w : with_em (em w) w = w.
Proof. by destruct w. Qed.

Lemma int_wrap_range z : int_min ≤ int_wrap z ≤ int_max.
Proof.
  unfold int_wrap, int_min, int_max.
  pose proof (Z.mod_pos_bound (z + 2 ^ 63) (2 ^ 64) ltac:(lia)). lia.
Qed.

Lemma int_wrap_small z : int_min ≤ z ≤ int_max → int_wrap z = z.
Proof.
  unfold int_wrap, int_min, int_max. intros H.
  rewrite Z.mod_small; lia.
Qed.

Lemma int_wrap_idem_add z k : int_wrap (int_wrap z + k) = int_wrap (z + k).
Proof.
  unfold int_wrap.
  replace ((z + 2 ^ 63) mod 2 ^ 64 - 2 ^ 63 + k + 2 ^ 63)
    with ((z + 2 ^ 63) mod 2 ^ 64 + k) by lia.
  rewrite Zplus_mod_idemp_l. f_equal. f_equal. lia.
Qed.

Lemma int_wrap_inj a b :
  int_wrap a = int_wrap b → 0 ≤ a → a ≤ b → b - a < 2 ^ 64 → a = b.
Proof.
  unfold int_wrap. intros H Ha Hab Hlt.
  assert (E : (a + 2 ^ 63) mod 2 ^ 64 = (b + 2 ^ 63) mod 2 ^ 64) by lia.
  pose proof (Z.div_mod (a + 2 ^ 63) (2 ^ 64) ltac:(lia)) as Da.
  pose proof (Z.div_mod (b + 2 ^ 63) (2 ^ 64) ltac:(lia)) as Db.
  assert (Hq : b - a = 2 ^ 64 * ((b + 2 ^ 63) / 2 ^ 64 - (a + 2 ^ 63) / 2 ^ 64))
    by lia.
  nia.
Qed.

Lemma int_wrap_zero z : int_wrap z = 0 → 0 < z → 2 ^ 64 ≤ z.
Proof.
  unfold int_wrap. intros H Hz.
  destruct (Z_lt_le_dec z (2 ^ 64)) as [Hlt|]; [|done].
  destruct (Z_lt_le_dec z (2 ^ 63)).
  - rewrite Z.mod_small in H; lia.
  - replace (z + 2 ^ 63) with ((z - 2 ^ 63) + 1 * 2 ^ 64) in H by lia.
    rewrite Z_mod_plus_full, Z.mod_small in H; lia.
Qed.

(** ** What every run preserves *)

Section Preserve.
(** A property of the world kept by every method call, and by every entry
    a dispatch at depth [d0] or deeper writes for a callback it found in the
    registry of a world with the property, is kept by every run that starts
    inside [d0] dispatches, finished or not. *)
Variable P : World → Prop.
Variable found : ZagroCallback → Prop.
Variable d0 : nat.
Hypothesis P_On : ∀ w event cb, P w →
  P (note_issue (On event (UserFn cb) (em w)).1
                (with_em (On event (UserFn cb) (em w)).2 w)).
Hypothesis P_Once : ∀ w event cb, P w →
  P (note_issue (Once event cb w).1 (Once event cb w).2).
Hypothesis P_Off : ∀ w event i, P w → P (with_em (Off event i (em w)) w).
Hypothesis P_RemoveAll : ∀ w event, P w →
  P (with_em (RemoveAll event (em w)) w).
Hypothesis P_Store : ∀ w x v, P w → P (with_vars (<[x := v]> (vars w)) w).
Hypothesis P_found : ∀ w event, P w →
  Forall found (callback <$> listeners_of event (em w)).
Hypothesis P_Invoke : ∀ w d cb msg, (d0 ≤ d)%nat → found cb → P w →
  P (record (Invoke d cb msg) w).

Lemma dispatch_preserves_found run :
  (∀ d p w, (d0 ≤ d)%nat → P w → P (run d p w).2) →
  ∀ callbacks d msg w, (d0 ≤ d)%nat → Forall found callbacks → P w →
  P (dispatch run d callbacks msg w).2.
Proof.
  intros Hrun callbacks. induction callbacks as [|cb rest IH];
    intros d msg w Hd Hcbs Hw; simpl; [done|].
  apply Forall_cons in Hcbs as [Hcb Hrest].
  assert (Hinv : P (invoke run d cb msg (record (Invoke d cb msg) w)).2).
  { destruct cb as [body|event c body]; unfold invoke.
    - apply Hrun; [lia|]. by apply P_Invoke.
    - apply Hrun; [lia|]. apply P_Off. by apply P_Invoke. }
  destruct (invoke run d cb msg (record (Invoke d cb msg) w)) as [[] w1];
    simpl in *; [by apply IH | done].
Qed.

Lemma exec_preserves_found fuel :
  ∀ d p w, (d0 ≤ d)%nat → P w → P (exec fuel d p w).2.
Proof.
  induction fuel as [|fuel IHfuel]; intros d p; revert d;
    induction p as [|event cb k IH|event cb k IH|event msg k IH|event i k IH
                    |event k IH|event k IH|k IH|x k IH|x v k IH];
    intros d w Hd Hw; simpl; auto.
  - apply IH; [done|]. rewrite with_em_id. done.
  - apply IH; [done|]. rewrite with_em_id. done.
  - pose proof (dispatch_preserves_found (exec fuel) IHfuel
                  (callback <$> listeners_of event (em w)) d msg w Hd
                  (P_found w event Hw) Hw) as Hdisp.
    unfold Emit.
    destruct (dispatch (exec fuel) d (callback <$> listeners_of event (em w)) msg w)
      as [[] w1]; simpl in *; [by apply IH | done].
  - apply IH; [done|]. rewrite with_em_id. done.
  - apply IH; [done|]. rewrite with_em_id. done.
Qed.
End Preserve.

Lemma closed_exec P found d0 :
  step_closed P found d0 →
  ∀ fuel d p w, (d0 ≤ d)%nat → P w → P (exec fuel d p w).2.
Proof.
  intros (HOn & HOnce & HOff & HRemoveAll & HStore & Hfound & HInvoke) fuel.
  by apply (exec_preserves_found P found d0).
Qed.

Lemma closed_dispatch P found d0 :
  step_closed P found d0 →
  ∀ fuel callbacks d msg w, (d0 ≤ d)%nat → Forall found callbacks → P w →
  P (dispatch (exec fuel) d callbacks msg w).2.
Proof.
  intros Hclosed fuel.
  pose proof Hclosed as (HOn & HOnce & HOff & HRemoveAll & HStore & Hfound & HInvoke).
  apply (dispatch_preserves_found P found d0); try done.
  intros d p w. by apply (closed_exec P found d0).
Qed.

Lemma closed_and P Q found d0 :
  step_closed P (λ _, True) d0 → step_closed Q found d0 →
  step_closed (λ w, P w ∧ Q w) found d0.
Proof.
  intros (P1 & P2 & P3 & P4 & P5 & _ & P7) (Q1 & Q2 & Q3 & Q4 & Q5 & Q6 & Q7).
  unfold step_closed. repeat apply conj.
  - intros w event cb [HP HQ]. split; [by apply P1 | by apply Q1].
  - intros w event cb [HP HQ]. split; [by apply P2 | by apply Q2].
  - intros w event i [HP HQ]. split; [by apply P3 | by apply Q3].
  - intros w event [HP HQ]. split; [by apply P4 | by apply Q4].
  - intros w x v [HP HQ]. split; [by apply P5 | by apply Q5].
  - intros w event [_ HQ]. by apply Q6.
  - intros w d cb msg Hd Hcb [HP HQ]. split; [by apply P7 | by apply Q7].
Qed.

(** The same with nothing asked of the callbacks. *)
Lemma exec_preserves (P : World → Prop) (d0 : nat) :
  (∀ w event cb, P w →
     P (note_issue (On event (UserFn cb) (em w)).1
                   (with_em (On event (UserFn cb) (em w)).2 w))) →
  (∀ w event cb, P w → P (note_issue (Once event cb w).1 (Once event cb w).2)) →
  (∀ w event i, P w → P (with_em (Off event i (em w)) w)) →
  (∀ w event, P w → P (with_em (RemoveAll event (em w)) w)) →
  (∀ w x v, P w → P (with_vars (<[x := v]> (vars w)) w)) →
  (∀ w d cb msg, (d0 ≤ d)%nat → P w → P (record (Invoke d cb msg) w)) →
  ∀ fuel d p w, (d0 ≤ d)%nat → P w → P (exec fuel d p w).2.
Proof.
  intros HOn HOnce HOff HRemoveAll HStore HInvoke fuel.
  apply (exec_preserves_found P (λ _, True) d0); auto.
  intros w event _. by apply Forall_forall.
Qed.

(** ** The methods, case by case *)

Lemma On_at_limit event cb e :
  at_limit event e = true →
  On event cb e = ((0, Some (limit_error event)), e).
Proof. unfold at_limit, On. by intros ->. Qed.

Lemma On_below_limit event cb e :
  at_limit event e = false →
  On event cb e =
    ((int_incr (nextID e), None),
     {| events := <[event := listeners_of event e
                            ++ [{| id := int_incr (nextID e); callback := cb |}]]>
                    (events e);
        nextID := int_incr (nextID e);
        maxListeners := maxListeners e |}).
Proof. unfold at_limit, On. by intros ->. Qed.

Lemma listeners_of_insert event event' ls e n m :
  listeners_of event'
    {| events := <[event := ls]> (events e); nextID := n; maxListeners := m |}
  = if decide (event = event') then ls else listeners_of event' e.
Proof.
  unfold listeners_of; simpl. rewrite lookup_insert.
  by destruct (decide (event = event')).
Qed.

Lemma listeners_of_delete event event' e n m :
  listeners_of event'
    {| events := delete event (events e); nextID := n; maxListeners := m |}
  = if decide (event = event') then [] else listeners_of event' e.
Proof.
  unfold listeners_of; simpl. rewrite lookup_delete.
  by destruct (decide (event = event')).
Qed.

Lemma On_listeners event event' cb e :
  listeners_of event' (On event cb e).2 =
    if decide (event = event') then
      match (On event cb e).1.2 with
      | None => listeners_of event e ++ [{| id := (On event cb e).1.1; callback := cb |}]
      | Some _ => listeners_of event e
      end
    else listeners_of event' e.
Proof.
  destruct (at_limit event e) eqn:E.
  - rewrite (On_at_limit _ _ _ E); simpl. by destruct (decide _) as [->|].
  - rewrite (On_below_limit _ _ _ E); simpl. apply listeners_of_insert.
Qed.

Lemma On_maxListeners event cb e :
  maxListeners (On event cb e).2 = maxListeners e.
Proof.
  destruct (at_limit event e) eqn:E;
    [rewrite (On_at_limit _ _ _ E) | rewrite (On_below_limit _ _ _ E)]; done.
Qed.

Lemma find_id_Some target ls i :
  find_id target ls = Some i →
  ∃ l1 x l2, ls = l1 ++ x :: l2 ∧ length l1 = i ∧ id x = target ∧
             Forall (λ y, id y ≠ target) l1 ∧ cut i ls = l1 ++ l2.
Proof.
  revert i. induction ls as [|l rest IH]; intros i; simpl; [done|].
  destruct (Z.eqb_spec (id l) target) as [Heq|Hne].
  - intros [= <-]. exists [], l, rest. by rewrite Forall_nil.
  - destruct (find_id target rest) as [j|] eqn:E; simpl; [|done].
    intros [= <-]. destruct (IH j eq_refl) as (l1 & x & l2 & -> & <- & Hx & Hl1 & Hcut).
    exists (l :: l1), x, l2. repeat split; auto.
    unfold cut in *. simpl. by rewrite Hcut.
Qed.

Lemma find_id_None target ls :
  find_id target ls = None ↔ Forall (λ y, id y ≠ target) ls.
Proof.
  induction ls as [|l rest IH]; simpl; [by rewrite Forall_nil|].
  rewrite Forall_cons. destruct (Z.eqb_spec (id l) target) as [Heq|Hne].
  - split; [done | by intros [? _]].
  - destruct (find_id target rest); simpl; split; try done.
    + intros [_ H]. by apply IH in H.
    + intros _. split; [done|]. by apply IH.
Qed.

Lemma len_zero {A} (l : list A) : (len l =? 0) = true ↔ l = [].
Proof.
  unfold len. rewrite Z.eqb_eq. destruct l; simpl; split; try done; lia.
Qed.

(** [Off] when the event has no entry. *)
Lemma Off_absent event target e :
  events e !! event = None → Off event target e = e.
Proof. unfold Off. by intros ->. Qed.

(** [Off] when no listener of the event has the id. *)
Lemma Off_no_match event target e ls :
  events e !! event = Some ls → ls ≠ [] →
  Forall (λ y, id y ≠ target) ls → Off event target e = e.
Proof.
  intros Hls Hne Hno. unfold Off. rewrite Hls.
  apply find_id_None in Hno. rewrite Hno.
  unfold listeners_of. rewrite Hls; simpl.
  destruct (len ls =? 0) eqn:E; [|done]. by apply len_zero in E.
Qed.

Lemma first_match_unique target l1 (x : listener) l2 l1' x' l2' :
  l1 ++ x :: l2 = l1' ++ x' :: l2' → id x = target → id x' = target →
  Forall (λ y, id y ≠ target) l1 → Forall (λ y, id y ≠ target) l1' →
  l1' = l1 ∧ l2' = l2.
Proof.
  revert l1'. induction l1 as [|y l1 IH]; intros [|y' l1'] Heq Hx Hx' H1 H1';
    simplify_eq/=.
  - done.
  - apply Forall_cons in H1' as [? _]. done.
  - apply Forall_cons in H1 as [? _]. done.
  - apply Forall_cons in H1 as [_ H1]. apply Forall_cons in H1' as [_ H1'].
    match goal with
    | Heq : l1 ++ _ = l1' ++ _ |- _ =>
        destruct (IH l1' Heq eq_refl Hx' H1 H1') as [-> ->]
    end. done.
Qed.

(** [Off] when a listener has the id: the first such one goes. *)
Lemma Off_match event target e l1 x l2 :
  events e !! event = Some (l1 ++ x :: l2) → id x = target →
  Forall (λ y, id y ≠ target) l1 →
  Off event target e =
    {| events := if decide (l1 ++ l2 = []) then delete event (events e)
                 else <[event := l1 ++ l2]> (events e);
       nextID := nextID e;
       maxListeners := maxListeners e |}.
Proof.
  intros Hls Hx Hl1. unfold Off. rewrite Hls.
  destruct (find_id target (l1 ++ x :: l2)) as [i|] eqn:E.
  - apply find_id_Some in E as (l1' & x' & l2' & Heq & <- & Hx' & Hl1' & ->).
    destruct (first_match_unique _ _ _ _ _ _ _ Heq Hx Hx' Hl1 Hl1') as [-> ->].
    rewrite listeners_of_insert. rewrite decide_True by done.
    destruct (len (l1 ++ l2) =? 0) eqn:E; simpl.
    + apply len_zero in E. rewrite decide_True by done.
      by rewrite delete_insert_eq.
    + rewrite decide_False; [done|]. intros H. apply len_zero in H. congruence.
  - apply find_id_None in E. rewrite Forall_app, Forall_cons in E.
    by destruct E as (_ & ? & _).
Qed.

Lemma Off_listeners_other event event' target e :
  event ≠ event' → listeners_of event' (Off event target e) = listeners_of event' e.
Proof.
  intros Hne. unfold Off. destruct (events e !! event) as [ls|]; [|done].
  set (e1 := match find_id target ls with Some _ => _ | None => _ end).
  assert (listeners_of event' e1 = listeners_of event' e) as He1.
  { subst e1. destruct (find_id target ls); [|done].
    rewrite listeners_of_insert. by rewrite decide_False. }
  destruct (len (listeners_of event e1) =? 0); [|done].
  rewrite listeners_of_delete. by rewrite decide_False.
Qed.

Lemma registry_ok_NewZagro opts : registry_ok (NewZagro opts).
Proof. intros event ls. simpl. by rewrite lookup_empty. Qed.

Lemma registry_ok_On event cb e : registry_ok e → registry_ok (On event cb e).2.
Proof.
  intros Hok. destruct (at_limit event e) eqn:E.
  - by rewrite (On_at_limit _ _ _ E).
  - rewrite (On_below_limit _ _ _ E). intros event' ls; simpl.
    rewrite lookup_insert. destruct (decide (event = event')) as [->|].
    + intros [= <-]. by destruct (listeners_of event' e).
    + apply Hok.
Qed.

Lemma registry_ok_RemoveAll event e : registry_ok e → registry_ok (RemoveAll event e).
Proof.
  intros Hok event' ls; simpl. rewrite lookup_delete.
  destruct (decide (event = event')); [done | apply Hok].
Qed.

Lemma registry_ok_Off event target e : registry_ok e → registry_ok (Off event target e).
Proof.
  intros Hok. destruct (events e !! event) as [ls|] eqn:Hls;
    [|by rewrite Off_absent].
  destruct (find_id target ls) as [i|] eqn:E.
  - apply find_id_Some in E as (l1 & x & l2 & -> & _ & Hx & Hl1 & _).
    rewrite (Off_match _ _ _ _ _ _ Hls Hx Hl1).
    intros event' ls; simpl. destruct (decide (l1 ++ l2 = [])).
    + rewrite lookup_delete. destruct (decide (event = event')); [done | apply Hok].
    + rewrite lookup_insert. destruct (decide (event = event')); [congruence | apply Hok].
  - apply find_id_None in E. rewrite (Off_no_match _ _ _ _ Hls); eauto.
Qed.

(** ** Count, CountAll, RemoveAll *)

Lemma total_over_perm e l1 l2 : l1 ≡ₚ l2 → total_over e l1 = total_over e l2.
Proof.
  induction 1 as [|x l1 l2 _ IH|x y l|l1 l2 l3 _ IH1 _ IH2]; simpl; lia.
Qed.

Lemma total_over_ext e1 e2 names :
  (∀ event, event ∈ names → events e1 !! event = events e2 !! event) →
  total_over e1 names = total_over e2 names.
Proof.
  induction names as [|x names IH]; intros H; simpl; [done|].
  rewrite IH by (intros; apply H; by right).
  unfold listeners_of. rewrite (H x) by left. done.
Qed.

Lemma CountAll_sum e :
  (CountAll e).1 = total_over e (elements (dom (events e))).
Proof.
  destruct e as [m n k]; simpl.
  induction m as [|event ls m Hnone IH] using map_ind.
  - by rewrite map_fold_empty, dom_empty_L, elements_empty.
  - rewrite map_fold_insert_L; [|intros; lia|done].
    rewrite dom_insert_L.
    rewrite (total_over_perm _ (elements ({[event]} ∪ dom m))
               (event :: elements (dom m)))
      by (apply elements_union_singleton; by apply not_elem_of_dom).
    simpl. unfold listeners_of at 1; simpl. rewrite lookup_insert_eq; simpl.
    rewrite IH.
    rewrite (total_over_ext
               {| events := <[event:=ls]> m; nextID := n; maxListeners := k |}
               {| events := m; nextID := n; maxListeners := k |}
               (elements (dom m))); [lia|].
    intros event' Hin; simpl. apply lookup_insert_ne.
    intros ->. apply elem_of_elements, elem_of_dom in Hin as [? Hin]. congruence.
Qed.

(** C8.  [Count(event)] is the length of the event's slice, 0 for a name
    that is no key of the map; [CountAll()] is the sum of [Count] over the
    keys of the map; after [RemoveAll(event)], [Count(event)] is 0 whatever
    it was, no other event is touched, and [RemoveAll] changes nothing when
    the event had no entry. *)
Theorem Count_CountAll_RemoveAll (e : Zagro) (event : string) :
  (∀ ls, events e !! event = Some ls → (Count event e).1 = Z.of_nat (length ls)) ∧
  (events e !! event = None → (Count event e).1 = 0) ∧
  (CountAll e).1 = total_over e (elements (dom (events e))) ∧
  (Count event (RemoveAll event e)).1 = 0 ∧
  events (RemoveAll event e) !! event = None ∧
  (∀ event', event' ≠ event →
     events (RemoveAll event e) !! event' = events e !! event') ∧
  (events e !! event = None → RemoveAll event e = e).
Proof.
  repeat split.
  - intros ls Hls. simpl. unfold listeners_of. by rewrite Hls.
  - intros Hnone. simpl. unfold listeners_of. by rewrite Hnone.
  - apply CountAll_sum.
  - simpl. unfold RemoveAll. rewrite listeners_of_delete.
    by rewrite decide_True.
  - simpl. apply lookup_delete_eq.
  - intros event' Hne. simpl. by apply lookup_delete_ne.
  - intros Hnone. unfold RemoveAll. rewrite delete_id by done. by destruct e.
Qed.

(** C10.  [Count] and [CountAll] hand back the emitter they were given:
    the map (in particular no entry appears for a name that was not a key)
    and the counter are the same, and a client that only counts leaves the
    whole world as it was. *)
Theorem Count_CountAll_pure (e : Zagro) (event : string) :
  (Count event e).2 = e ∧
  (CountAll e).2 = e ∧
  events (Count event e).2 !! event = events e !! event ∧
  nextID (Count event e).2 = nextID e ∧
  (∀ fuel d w,
     exec fuel d (DoCount event (λ _, DoCountAll (λ _, Done))) w = (Finished, w)).
Proof.
  repeat split. intros fuel d w. by destruct fuel, w.
Qed.

(** ** The listener limit *)

Lemma On_error_iff event cb e :
  (On event cb e).1.2 ≠ None ↔ at_limit event e = true.
Proof.
  destruct (at_limit event e) eqn:E.
  - rewrite (On_at_limit _ _ _ E). done.
  - rewrite (On_below_limit _ _ _ E). simpl. split; [done | congruence].
Qed.

Lemma at_limit_iff event e :
  at_limit event e = true ↔
  0 < maxListeners e ∧ maxListeners e ≤ len (listeners_of event e).
Proof. unfold at_limit. rewrite andb_true_iff, Z.ltb_lt, Z.leb_le. done. Qed.

Lemma Once_result event cb w :
  (Once event cb w).1 = (On event (OnceFn event (length (cells w)) cb) (em w)).1 ∧
  em (Once event cb w).2 = (On event (OnceFn event (length (cells w)) cb) (em w)).2.
Proof.
  unfold Once. simpl.
  by destruct (On event (OnceFn event (length (cells w)) cb) (em w)) as [[i err] e1].
Qed.

Lemma On_all_below event cbs e :
  0 < maxListeners e →
  len (listeners_of event e) + len cbs ≤ maxListeners e →
  Forall (λ err, err = None) (On_all event cbs e).1 ∧
  len (listeners_of event (On_all event cbs e).2) = len (listeners_of event e) + len cbs ∧
  maxListeners (On_all event cbs e).2 = maxListeners e.
Proof.
  revert e. induction cbs as [|cb rest IH]; intros e Hpos Hle; simpl.
  - split; [done|]. unfold len; simpl. split; [lia | done].
  - assert (E : at_limit event e = false).
    { apply not_true_is_false. rewrite at_limit_iff. unfold len in *; simpl in *. lia. }
    pose proof (On_listeners event event cb e) as Hls.
    pose proof (On_maxListeners event cb e) as Hmax.
    rewrite decide_True in Hls by done.
    rewrite (On_below_limit _ _ _ E) in Hls, Hmax |- *. cbn [fst snd] in *.
    set (e1 := {| events := _; nextID := _; maxListeners := _ |}) in *.
    destruct (IH e1) as (Hall & Hlen & Hmax').
    + by rewrite Hmax.
    + rewrite Hmax, Hls. unfold len in *. rewrite length_app. simpl in *. lia.
    + split; [by constructor|]. split; [|congruence].
      rewrite Hlen, Hls. unfold len. rewrite length_app. simpl. lia.
Qed.

Lemma Off_maxListeners event target e :
  maxListeners (Off event target e) = maxListeners e.
Proof.
  unfold Off. destruct (events e !! event) as [ls|]; [|done].
  destruct (find_id target ls); simpl;
    match goal with |- context [if ?b then _ else _] => destruct b end; done.
Qed.

Lemma elem_of_ids_split target (ls : list listener) :
  target ∈ id <$> ls →
  ∃ l1 x l2, ls = l1 ++ x :: l2 ∧ id x = target ∧ Forall (λ y, id y ≠ target) l1.
Proof.
  intros Hin. destruct (find_id target ls) as [i|] eqn:E.
  - apply find_id_Some in E as (l1 & x & l2 & ? & _ & ? & ? & _). eauto 10.
  - apply find_id_None in E. apply list_elem_of_fmap in Hin as (x & -> & Hx).
    rewrite Forall_forall in E. by apply E in Hx.
Qed.

(** C7.  [Off(event, id)], in a state where no key holds an empty slice
    (every reachable state is one): when a listener of the event has the id, the
    first such listener (the only one when ids are distinct) is taken out,
    the others keep their order, [Count(event)] drops by exactly 1, the key
    goes when the slice becomes empty, and nothing else changes; when the
    event has no entry or none of its listeners has the id, the emitter is
    left exactly as it was. *)
Theorem Off_removes_one (e : Zagro) (event : string) (target : Z)
    (Hok : registry_ok e) :
  (target ∈ id <$> listeners_of event e →
   ∃ l1 x l2,
     listeners_of event e = l1 ++ x :: l2 ∧ id x = target ∧
     Forall (λ y, id y ≠ target) l1 ∧
     listeners_of event (Off event target e) = l1 ++ l2 ∧
     (Count event (Off event target e)).1 = (Count event e).1 - 1 ∧
     (l1 ++ l2 = [] → events (Off event target e) !! event = None) ∧
     (∀ event', event' ≠ event →
        events (Off event target e) !! event' = events e !! event') ∧
     nextID (Off event target e) = nextID e ∧
     maxListeners (Off event target e) = maxListeners e) ∧
  (target ∉ (id <$> listeners_of event e) → Off event target e = e).
Proof.
  split.
  - intros Hin. destruct (elem_of_ids_split _ _ Hin) as (l1 & x & l2 & Hls & Hx & Hl1).
    exists l1, x, l2. repeat split; try done.
    all: assert (Hev : events e !! event = Some (l1 ++ x :: l2))
      by (unfold listeners_of in Hls; destruct (events e !! event); simpl in *;
          [congruence | by destruct l1]).
    all: rewrite (Off_match _ _ _ _ _ _ Hev Hx Hl1); try done.
    + unfold listeners_of; simpl. destruct (decide (l1 ++ l2 = [])) as [->|].
      * by rewrite lookup_delete_eq.
      * by rewrite lookup_insert_eq.
    + simpl. rewrite Hls. unfold listeners_of; simpl.
      destruct (decide (l1 ++ l2 = [])) as [E|].
      * rewrite lookup_delete_eq. simpl. unfold len. rewrite length_app; simpl.
        apply (f_equal length) in E. rewrite length_app in E. simpl in *. lia.
      * rewrite lookup_insert_eq. simpl. unfold len. rewrite !length_app; simpl. lia.
    + intros E. simpl. rewrite decide_True by done. apply lookup_delete_eq.
    + intros event' Hne. simpl. destruct (decide (l1 ++ l2 = [])).
      * by apply lookup_delete_ne.
      * by apply lookup_insert_ne.
  - intros Hnot. destruct (events e !! event) as [ls|] eqn:Hev;
      [|by apply Off_absent].
    apply (Off_no_match _ _ _ ls); [done | by eapply Hok |].
    apply Forall_forall. intros y Hy Heq. apply Hnot.
    unfold listeners_of. rewrite Hev. simpl. apply list_elem_of_fmap. eauto.
Qed.

(** C2.  With a positive limit K, [On] (and [Once], which calls it) fails
    exactly when the event already has K listeners or more, and then gives
    back id 0 and the emitter untouched; K registrations on an event that
    had none succeed and the next one on that event fails; registering on
    one event does not change the listeners of another; once [Off] has
    brought a full event below K, registering on it succeeds.  With limit 0
    no registration fails. *)
Theorem limit_enforced (e : Zagro) (event : string) (cb : ZagroCallback) :
  (0 < maxListeners e →
   ((On event cb e).1.2 ≠ None ↔ maxListeners e ≤ (Count event e).1) ∧
   ((On event cb e).1.2 ≠ None →
      On event cb e = ((0, Some (limit_error event)), e)) ∧
   (∀ w f, em w = e →
      ((Once event f w).1.2 ≠ None ↔ maxListeners e ≤ (Count event e).1) ∧
      ((Once event f w).1.2 ≠ None →
         (Once event f w).1 = (0, Some (limit_error event)) ∧
         em (Once event f w).2 = e)) ∧
   (∀ cbs, listeners_of event e = [] → len cbs = maxListeners e →
      Forall (λ err, err = None) (On_all event cbs e).1 ∧
      (On event cb (On_all event cbs e).2).1.2 = Some (limit_error event)) ∧
   (∀ event', event' ≠ event →
      listeners_of event' (On event cb e).2 = listeners_of event' e ∧
      ∀ cb', (On event' cb' (On event cb e).2).1.2 = (On event' cb' e).1.2) ∧
   (∀ target, (Count event e).1 = maxListeners e →
      target ∈ id <$> listeners_of event e →
      (On event cb (Off event target e)).1.2 = None)) ∧
  (maxListeners e = 0 →
   (On event cb e).1.2 = None ∧ ∀ w f, em w = e → (Once event f w).1.2 = None).
Proof.
  split.
  - intros Hpos. split; [|split; [|split; [|split; [|split]]]].
    + rewrite On_error_iff, at_limit_iff. simpl. intuition.
    + rewrite On_error_iff. apply On_at_limit.
    + intros w f <-. destruct (Once_result event f w) as [-> ->].
      rewrite On_error_iff, at_limit_iff. simpl. split; [intuition|].
      intros [_ Hle]. rewrite On_at_limit; [done|]. by apply at_limit_iff.
    + intros cbs Hnil Hlen.
      destruct (On_all_below event cbs e Hpos) as (Hall & Hcount & Hmax).
      { rewrite Hnil. unfold len at 1; simpl. lia. }
      split; [done|]. rewrite On_at_limit; [done|].
      apply at_limit_iff. rewrite Hmax, Hcount, Hnil. unfold len at 1; simpl. lia.
    + intros event' Hne.
      assert (Hls : listeners_of event' (On event cb e).2 = listeners_of event' e).
      { rewrite On_listeners. by rewrite decide_False. }
      split; [done|]. intros cb'.
      assert (at_limit event' (On event cb e).2 = at_limit event' e) as Hlim.
      { unfold at_limit. by rewrite On_maxListeners, Hls. }
      destruct (at_limit event' e) eqn:E.
      * by rewrite (On_at_limit _ _ _ Hlim), (On_at_limit _ _ _ E).
      * by rewrite (On_below_limit _ _ _ Hlim), (On_below_limit _ _ _ E).
    + intros target Hfull Hin.
      assert (E : at_limit event (Off event target e) = false).
      { apply not_true_is_false. rewrite at_limit_iff, Off_maxListeners.
        destruct (elem_of_ids_split _ _ Hin) as (l1 & x & l2 & Hls & Hx & Hl1).
        assert (Hev : events e !! event = Some (l1 ++ x :: l2))
          by (unfold listeners_of in Hls; destruct (events e !! event); simpl in *;
              [congruence | by destruct l1]).
        rewrite (Off_match _ _ _ _ _ _ Hev Hx Hl1).
        simpl in Hfull. rewrite Hls in Hfull. unfold listeners_of; simpl.
        destruct (decide (l1 ++ l2 = [])) as [E|].
        - rewrite lookup_delete_eq. unfold len; simpl. lia.
        - rewrite lookup_insert_eq. simpl. unfold len in *.
          rewrite length_app in *. simpl in *. lia. }
      by rewrite On_below_limit.
  - intros Hzero.
    assert (H : at_limit event e = false).
    { apply not_true_is_false. rewrite at_limit_iff. lia. }
    split; [by rewrite On_below_limit|].
    intros w f <-. destruct (Once_result event f w) as [-> _].
    by rewrite On_below_limit.
Qed.

(** ** Reachable states *)

Lemma issued_record_Issued i w : issued (record (Issued i) w) = issued w ++ [i].
Proof. unfold issued, record; simpl. by rewrite omap_app. Qed.

Lemma issued_record_Invoke d cb msg w :
  issued (record (Invoke d cb msg) w) = issued w.
Proof. unfold issued, record; simpl. rewrite omap_app; simpl. apply app_nil_r. Qed.

Lemma em_record x w : em (record x w) = em w.
Proof. done. Qed.

Lemma em_note_issue r w : em (note_issue r w) = em w.
Proof. unfold note_issue. by destruct r.2. Qed.

Lemma Off_listeners_subset event event' target e l :
  l ∈ listeners_of event' (Off event target e) → l ∈ listeners_of event' e.
Proof.
  destruct (decide (event = event')) as [<-|Hne];
    [|by rewrite Off_listeners_other].
  destruct (events e !! event) as [ls|] eqn:Hev; [|by rewrite Off_absent].
  destruct (find_id target ls) as [i|] eqn:E.
  - apply find_id_Some in E as (l1 & x & l2 & -> & _ & Hx & Hl1 & _).
    rewrite (Off_match _ _ _ _ _ _ Hev Hx Hl1).
    unfold listeners_of; simpl. rewrite Hev; simpl.
    destruct (decide (l1 ++ l2 = [])).
    + rewrite lookup_delete_eq. simpl. by intros ?%elem_of_nil.
    + rewrite lookup_insert_eq. simpl. rewrite !elem_of_app, elem_of_cons. tauto.
  - apply find_id_None in E.
    destruct ls as [|y ls].
    + assert (Hnil : listeners_of event e = [])
        by (unfold listeners_of; by rewrite Hev).
      unfold Off. rewrite Hev. cbn [find_id]. rewrite Hnil.
      change (len (@nil listener) =? 0) with true. cbv iota.
      rewrite listeners_of_delete, decide_True by done. by intros ?%elem_of_nil.
    + by rewrite (Off_no_match _ _ _ _ Hev).
Qed.

Lemma exec_registry_ok fuel d p w :
  registry_ok (em w) → registry_ok (em (exec fuel d p w).2).
Proof.
  apply (exec_preserves (λ w, registry_ok (em w)) 0); [..|lia].
  - intros w' event cb H. rewrite em_note_issue. simpl. by apply registry_ok_On.
  - intros w' event cb H. rewrite em_note_issue.
    destruct (Once_result event cb w') as [_ ->]. by apply registry_ok_On.
  - intros w' event i H. by apply registry_ok_Off.
  - intros w' event H. by apply registry_ok_RemoveAll.
  - done.
  - done.
Qed.

Lemma reachable_registry_ok w : reachable w → registry_ok (em w).
Proof.
  intros (opts & fuel & p & o & Hrun).
  pose proof (exec_registry_ok fuel 0 p (fresh opts) (registry_ok_NewZagro opts)) as H.
  by rewrite Hrun in H.
Qed.

Lemma ids_ok_fresh opts : ids_ok (fresh opts).
Proof.
  split; simpl.
  - done.
  - intros k Hk. simpl in Hk. lia.
  - intros event l. unfold listeners_of; simpl. rewrite lookup_empty; simpl.
    by intros ?%elem_of_nil.
Qed.

(** A registration through [On], with the issue noted, keeps the account
    of the ids. *)
Lemma ids_ok_register event cb w w' :
  ids_ok w →
  em w' = (On event cb (em w)).2 → trace w' = trace w →
  ids_ok (note_issue (On event cb (em w)).1 w').
Proof.
  intros [Hc Hi Hl] Hem Htr.
  assert (Hiss : issued w' = issued w) by (unfold issued; by rewrite Htr).
  destruct (at_limit event (em w)) eqn:E.
  - rewrite (On_at_limit _ _ _ E) in *. unfold note_issue; simpl in *.
    split; rewrite ?Hiss, ?Hem; done.
  - rewrite (On_below_limit _ _ _ E) in *. unfold note_issue; simpl in *.
    assert (Hnew : int_incr (nextID (em w)) = int_wrap (len (issued w) + 1)).
    { unfold int_incr. rewrite Hc. apply int_wrap_idem_add. }
    split.
    + rewrite issued_record_Issued, Hiss, em_record, Hem; simpl.
      rewrite Hnew. unfold len. rewrite length_app; simpl. f_equal. lia.
    + intros k. rewrite issued_record_Issued, Hiss, length_app; simpl. intros Hk.
      destruct (decide (k < length (issued w))%nat) as [Hlt|Hge].
      * rewrite lookup_app_l by done. by apply Hi.
      * assert (k = length (issued w)) as -> by lia.
        rewrite list_lookup_middle by done. rewrite Hnew. unfold len. done.
    + intros event' l. rewrite issued_record_Issued, Hiss, em_record, Hem.
      rewrite listeners_of_insert, elem_of_app.
      destruct (decide (event = event')) as [<-|].
      * rewrite elem_of_app, list_elem_of_singleton. intros [Hin| ->].
        -- left. by eapply Hl.
        -- right. simpl. by apply list_elem_of_singleton.
      * intros Hin. left. by eapply Hl.
Qed.

Lemma ids_ok_shrink w e :
  ids_ok w →
  nextID e = nextID (em w) →
  (∀ event l, l ∈ listeners_of event e → l ∈ listeners_of event (em w)) →
  ids_ok (with_em e w).
Proof.
  intros [Hc Hi Hl] Hn Hsub. split; simpl; [by rewrite Hn | done |].
  intros event l Hin. eapply Hl, Hsub, Hin.
Qed.

Lemma Off_nextID event target e : nextID (Off event target e) = nextID e.
Proof.
  unfold Off. destruct (events e !! event) as [ls|]; [|done].
  destruct (find_id target ls); simpl;
    match goal with |- context [if ?b then _ else _] => destruct b end; done.
Qed.

Lemma exec_ids_ok fuel d p w : ids_ok w → ids_ok (exec fuel d p w).2.
Proof.
  apply (exec_preserves ids_ok 0); [..|lia].
  - intros w' event cb H. by apply ids_ok_register.
  - intros w' event cb H.
    destruct (Once_result event cb w') as [-> Hem].
    apply (ids_ok_register _ _ w'); [done | done |].
    unfold Once. simpl.
    by destruct (On event (OnceFn event (length (cells w')) cb) (em w')) as [[] ?].
  - intros w' event i H. apply ids_ok_shrink; [done | apply Off_nextID |].
    intros event' l. apply Off_listeners_subset.
  - intros w' event H. apply ids_ok_shrink; [done | done |].
    intros event' l. unfold RemoveAll. rewrite listeners_of_delete.
    destruct (decide (event = event')); [by intros ?%elem_of_nil | done].
  - intros w' x v [Hc Hi Hl]. by split.
  - intros w' d' cb msg _ [Hc Hi Hl].
    split; rewrite ?issued_record_Invoke; done.
Qed.

Lemma reachable_ids_ok w : reachable w → ids_ok w.
Proof.
  intros (opts & fuel & p & o & Hrun).
  pose proof (exec_ids_ok fuel 0 p (fresh opts) (ids_ok_fresh opts)) as H.
  by rewrite Hrun in H.
Qed.

(** ** Unfolding the interpreter *)

Lemma exec_Done fuel d w : exec fuel d Done w = (Finished, w).
Proof. by destruct fuel. Qed.

Lemma exec_DoOn fuel d event cb k w :
  exec fuel d (DoOn event cb k) w =
  exec fuel d (k (On event (UserFn cb) (em w)).1.1 (On event (UserFn cb) (em w)).1.2)
       (note_issue (On event (UserFn cb) (em w)).1
                   (with_em (On event (UserFn cb) (em w)).2 w)).
Proof. by destruct fuel. Qed.

Lemma exec_DoOnce fuel d event cb k w :
  exec fuel d (DoOnce event cb k) w =
  exec fuel d (k (Once event cb w).1.1 (Once event cb w).1.2)
       (note_issue (Once event cb w).1 (Once event cb w).2).
Proof. by destruct fuel. Qed.

Lemma exec_DoEmit_S fuel d event msg k w :
  exec (S fuel) d (DoEmit event msg k) w =
  match Emit (exec fuel) d event msg w with
  | (Finished, w1) => exec (S fuel) d k w1
  | stuck => stuck
  end.
Proof. done. Qed.

Lemma exec_DoEmit_O d event msg k w :
  exec 0 d (DoEmit event msg k) w = (OutOfFuel, w).
Proof. done. Qed.

Lemma exec_DoOff fuel d event i k w :
  exec fuel d (DoOff event i k) w = exec fuel d k (with_em (Off event i (em w)) w).
Proof. by destruct fuel. Qed.

Lemma exec_DoRemoveAll fuel d event k w :
  exec fuel d (DoRemoveAll event k) w =
  exec fuel d k (with_em (RemoveAll event (em w)) w).
Proof. by destruct fuel. Qed.

Lemma exec_DoCount fuel d event k w :
  exec fuel d (DoCount event k) w = exec fuel d (k (Count event (em w)).1) w.
Proof. destruct fuel; simpl; by rewrite with_em_id. Qed.

Lemma exec_DoCountAll fuel d k w :
  exec fuel d (DoCountAll k) w = exec fuel d (k (CountAll (em w)).1) w.
Proof. destruct fuel; simpl; by rewrite with_em_id. Qed.

Lemma exec_DoLoad fuel d x k w :
  exec fuel d (DoLoad x k) w = exec fuel d (k (default 0 (vars w !! x))) w.
Proof. by destruct fuel. Qed.

Lemma exec_DoStore fuel d x v k w :
  exec fuel d (DoStore x v k) w = exec fuel d k (with_vars (<[x := v]> (vars w)) w).
Proof. by destruct fuel. Qed.

Lemma exec_maxListeners fuel d p w :
  maxListeners (em (exec fuel d p w).2) = maxListeners (em w).
Proof.
  apply (exec_preserves (λ w', maxListeners (em w') = maxListeners (em w)) 0);
    [..|lia|done].
  - intros w' event cb <-. rewrite em_note_issue. apply On_maxListeners.
  - intros w' event cb <-. rewrite em_note_issue.
    destruct (Once_result event cb w') as [_ ->]. apply On_maxListeners.
  - intros w' event i <-. apply Off_maxListeners.
  - done.
  - done.
  - done.
Qed.

(** ** Running the churn *)

Lemma churn_succ n k : churn (N.succ n) k = churn_step (churn n k).
Proof. unfold churn. apply N.iter_succ. Qed.

Lemma churn_run fuel d n :
  ∀ w, maxListeners (em w) = 0 →
  ∃ w', (∀ k, exec fuel d (churn n k) w = exec fuel d k w') ∧
        maxListeners (em w') = 0 ∧
        len (issued w') = len (issued w) + Z.of_N n.
Proof.
  induction n as [|n IH] using N.peano_ind; intros w Hmax.
  - exists w. split; [done|]. split; [done | lia].
  - assert (E : at_limit "e" (em w) = false).
    { apply not_true_is_false. rewrite at_limit_iff. lia. }
    set (w1 := with_em (RemoveAll "e" (On "e" (UserFn (λ _, Done)) (em w)).2)
                 (note_issue (On "e" (UserFn (λ _, Done)) (em w)).1
                    (with_em (On "e" (UserFn (λ _, Done)) (em w)).2 w))).
    destruct (IH w1) as (w' & Hrun & Hmax' & Hlen).
    { subst w1. simpl. rewrite On_maxListeners. done. }
    exists w'. split; [|split; [done|]].
    + intros k. rewrite churn_succ. unfold churn_step.
      rewrite exec_DoOn, exec_DoRemoveAll. rewrite em_note_issue. apply Hrun.
    + rewrite Hlen. subst w1. rewrite (On_below_limit _ _ _ E).
      unfold note_issue, issued, len; simpl. rewrite omap_app, length_app; simpl. lia.
Qed.

(** ** Listener ids *)

Lemma reachable_run opts fuel p : reachable (exec fuel 0 p (fresh opts)).2.
Proof.
  exists opts, fuel, p, (exec fuel 0 p (fresh opts)).1. apply surjective_pairing.
Qed.

Lemma churn_fresh_length n :
  len (issued (exec 0 0 (churn n Done) (fresh [])).2) = Z.of_N n ∧
  maxListeners (em (exec 0 0 (churn n Done) (fresh [])).2) = 0.
Proof.
  destruct (churn_run 0 0 n (fresh []) eq_refl) as (w' & Hrun & Hmax & Hlen).
  rewrite Hrun, exec_Done. simpl. split; [|done]. rewrite Hlen. done.
Qed.

Lemma ids_ok_NoDup w :
  ids_ok w → len (issued w) < 2 ^ 64 → NoDup (issued w) ∧ 0 ∉ issued w.
Proof.
  intros [_ Hi _] Hlen. unfold len in Hlen. split.
  - apply NoDup_alt. intros i j x Hx Hy.
    pose proof (lookup_lt_Some _ _ _ Hx) as Hilt.
    pose proof (lookup_lt_Some _ _ _ Hy) as Hjlt.
    rewrite (Hi i Hilt) in Hx. rewrite (Hi j Hjlt) in Hy.
    assert (Heq : int_wrap (Z.of_nat i + 1) = int_wrap (Z.of_nat j + 1)) by congruence.
    destruct (decide (i ≤ j)%nat).
    + apply int_wrap_inj in Heq; lia.
    + symmetry in Heq. apply int_wrap_inj in Heq; lia.
  - intros Hin. apply list_elem_of_lookup in Hin as [k Hk].
    pose proof (lookup_lt_Some _ _ _ Hk) as Hklt.
    rewrite (Hi k Hklt) in Hk. injection Hk as Hk.
    apply int_wrap_zero in Hk; lia.
Qed.

(** C5, as the code has it.  As long as the emitter has handed out fewer
    than 2^64 ids, the ids returned by the successful registrations of a
    run (through [On] or [Once], by the client or by a callback) are
    pairwise distinct and none is 0, whether or not their listeners have
    been removed since. *)
Theorem ids_distinct_until_wrap (w : World) :
  reachable w → len (issued w) < 2 ^ 64 →
  NoDup (issued w) ∧ 0 ∉ issued w.
Proof. intros Hr. apply ids_ok_NoDup. by apply reachable_ids_ok. Qed.

Lemma ids_ok_lookup w k :
  ids_ok w → 0 ≤ k < len (issued w) →
  issued w !! Z.to_nat k = Some (int_wrap (k + 1)).
Proof.
  intros [_ Hi _] Hk. unfold len in Hk.
  rewrite Hi by lia. by rewrite Z2Nat.id by lia.
Qed.

(** Once 2^64 + 1 ids have been handed out, the first and the last are
    both 1 and the one before the last is 0. *)
Lemma ids_after_wrap w :
  ids_ok w → len (issued w) = Z.of_N 18446744073709551617 →
  ¬ NoDup (issued w) ∧ 0 ∈ issued w.
Proof.
  intros Hok Hlen.
  assert (H0 : issued w !! Z.to_nat 0 = Some 1)
    by (rewrite ids_ok_lookup by (done || lia); reflexivity).
  assert (H1 : issued w !! Z.to_nat 18446744073709551616 = Some 1)
    by (rewrite ids_ok_lookup by (done || lia); reflexivity).
  assert (H2 : issued w !! Z.to_nat 18446744073709551615 = Some 0)
    by (rewrite ids_ok_lookup by (done || lia); reflexivity).
  split.
  - intros Hnd. pose proof (NoDup_lookup _ _ _ _ Hnd H0 H1) as Heq.
    clear -Heq. lia.
  - apply list_elem_of_lookup. eauto.
Qed.

(** C5 as stated fails: a client that registers and removes a listener
    2^64 + 1 times gets id 1 the first and the last time, and id 0 once. *)
Lemma ids_reused_after_wrap :
  ¬ NoDup (issued (exec 0 0 (churn 18446744073709551617 Done) (fresh [])).2) ∧
  0 ∈ issued (exec 0 0 (churn 18446744073709551617 Done) (fresh [])).2.
Proof.
  apply ids_after_wrap.
  - apply reachable_ids_ok, reachable_run.
  - apply (churn_fresh_length 18446744073709551617).
Qed.

(** C9, as the code has it.  A registration that fails gives back id 0 and
    the emitter it was given, map and counter included ([Once] only leaves
    its own local variable behind).  As long as fewer than 2^63 - 1 ids
    have been handed out, every id handed out so far, the id of every
    listener in the map and the id a registration returns on success are
    1 or more, hence different from the 0 of a failure. *)
Theorem On_failure_atomic (w : World) (event : string) (cb : ZagroCallback)
    (f : ZagroMessage → prog) :
  ((On event cb (em w)).1.2 ≠ None →
     On event cb (em w) = ((0, Some (limit_error event)), em w)) ∧
  ((Once event f w).1.2 ≠ None →
     (Once event f w).1 = (0, Some (limit_error event)) ∧
     em (Once event f w).2 = em w) ∧
  (reachable w → len (issued w) < 2 ^ 63 - 1 →
     (∀ i, i ∈ issued w → 1 ≤ i) ∧
     (∀ event' l, l ∈ listeners_of event' (em w) → 1 ≤ id l) ∧
     ((On event cb (em w)).1.2 = None → 1 ≤ (On event cb (em w)).1.1) ∧
     ((Once event f w).1.2 = None → 1 ≤ (Once event f w).1.1)).
Proof.
  split; [|split].
  - rewrite On_error_iff. apply On_at_limit.
  - destruct (Once_result event f w) as [-> ->].
    rewrite On_error_iff. intros E. by rewrite On_at_limit.
  - intros Hr Hlen. destruct (reachable_ids_ok w Hr) as [Hc Hi Hl].
    unfold len in *.
    assert (Hiss : ∀ i, i ∈ issued w → 1 ≤ i).
    { intros i Hin. apply list_elem_of_lookup in Hin as [k Hk].
      pose proof (lookup_lt_Some _ _ _ Hk) as Hklt.
      rewrite (Hi k Hklt) in Hk. injection Hk as <-.
      rewrite int_wrap_small; unfold int_min, int_max; lia. }
    assert (Hok : ∀ cb', (On event cb' (em w)).1.2 = None →
                         1 ≤ (On event cb' (em w)).1.1).
    { intros cb'. destruct (at_limit event (em w)) eqn:E.
      - by rewrite (On_at_limit _ _ _ E).
      - rewrite (On_below_limit _ _ _ E). simpl. intros _.
        unfold int_incr. rewrite Hc, int_wrap_idem_add.
        rewrite int_wrap_small; unfold int_min, int_max; lia. }
    split; [done|]. split; [|split].
    + intros event' l Hin. eapply Hiss, Hl, Hin.
    + apply Hok.
    + destruct (Once_result event f w) as [-> _]. apply Hok.
Qed.

(** When the counter has wrapped to -1, the next [On] succeeds with 0. *)
Lemma On_at_minus_one event cb e :
  maxListeners e = 0 → nextID e = -1 →
  (On event cb e).1 = (0, None) ∧
  {| id := 0; callback := cb |} ∈ listeners_of event (On event cb e).2.
Proof.
  intros Hmax Hid.
  assert (E : at_limit event e = false).
  { apply not_true_is_false. rewrite at_limit_iff. lia. }
  rewrite (On_below_limit _ _ _ E), Hid. split; [reflexivity|].
  cbn [snd]. rewrite listeners_of_insert, decide_True by done.
  apply elem_of_app. right. by apply list_elem_of_singleton.
Qed.

Lemma counter_after_wrap w :
  ids_ok w → len (issued w) = Z.of_N 18446744073709551615 →
  nextID (em w) = -1.
Proof. intros [Hc _ _] Hlen. rewrite Hc, Hlen. reflexivity. Qed.

(** C9 as stated fails: after 2^64 - 1 registrations the counter is -1, the
    next [On] succeeds with id 0, and its listener sits in the map. *)
Lemma On_succeeds_with_zero_after_wrap :
  reachable (exec 0 0 (churn 18446744073709551615 Done) (fresh [])).2 ∧
  (On "e" (UserFn (λ _, Done))
      (em (exec 0 0 (churn 18446744073709551615 Done) (fresh [])).2)).1
    = (0, None) ∧
  {| id := 0; callback := UserFn (λ _, Done) |} ∈
    listeners_of "e"
      (On "e" (UserFn (λ _, Done))
         (em (exec 0 0 (churn 18446744073709551615 Done) (fresh [])).2)).2.
Proof.
  split; [apply reachable_run|].
  apply On_at_minus_one.
  - apply (churn_fresh_length 18446744073709551615).
  - apply counter_after_wrap.
    + apply reachable_ids_ok, reachable_run.
    + apply (churn_fresh_length 18446744073709551615).
Qed.

(** ** Keys of the registry *)

Lemma Off_last event x e :
  events e !! event = Some [x] → events (Off event (id x) e) !! event = None.
Proof.
  intros Hev.
  rewrite (Off_match event (id x) e [] x [] Hev eq_refl (Forall_nil_2 _)).
  simpl. apply lookup_delete_eq.
Qed.

(** C6.  In every reachable state each key of the map holds at least one
    listener.  Taking out the only listener of an event, by [Off] or by a
    once-wrapper removing itself when it is called, deletes the key, and so
    does [RemoveAll]. *)
Theorem registry_keys_nonempty (w : World) (event : string) :
  (reachable w →
     ∀ ls, events (em w) !! event = Some ls →
           ls ≠ [] ∧ 1 ≤ (Count event (em w)).1) ∧
  (∀ x, events (em w) !! event = Some [x] →
     events (Off event (id x) (em w)) !! event = None) ∧
  (∀ x c body run d msg,
     events (em w) !! event = Some [x] → cells w !! c = Some (id x) →
     ∃ w', invoke run d (OnceFn event c body) msg w = run (S d) (body msg) w' ∧
           events (em w') !! event = None) ∧
  events (RemoveAll event (em w)) !! event = None.
Proof.
  split; [|split; [|split]].
  - intros Hr ls Hev. pose proof (reachable_registry_ok w Hr event ls Hev) as Hne.
    split; [done|]. simpl. unfold listeners_of. rewrite Hev. simpl.
    destruct ls; [done|]. unfold len; simpl. lia.
  - intros x. apply Off_last.
  - intros x c body run d msg Hev Hc.
    exists (with_em (Off event (id x) (em w)) w). split.
    + unfold invoke. by rewrite Hc.
    + simpl. by apply Off_last.
  - simpl. apply lookup_delete_eq.
Qed.

(** ** What a dispatch calls *)

Lemma invoked_at_app d t1 t2 :
  invoked_at d (t1 ++ t2) = invoked_at d t1 ++ invoked_at d t2.
Proof. unfold invoked_at. apply omap_app. Qed.

Lemma invoked_at_deep d t : Forall (deep (S d)) t → invoked_at d t = [].
Proof.
  induction 1 as [|x t Hx _ IH]; [done|].
  destruct x as [i|d' cb msg]; [exact IH|].
  simpl in Hx. unfold invoked_at; simpl.
  destruct (Nat.eqb_spec d' d); [lia | exact IH].
Qed.

Lemma deep_mono d d' x : (d ≤ d')%nat → deep d' x → deep d x.
Proof. destruct x; simpl; [done | lia]. Qed.

(** A run inside [d] dispatches only adds to the trace, and nothing that
    looks like a call made by a dispatch shallower than [d]. *)
Lemma exec_trace fuel d p w :
  ∃ t, trace (exec fuel d p w).2 = trace w ++ t ∧ Forall (deep d) t.
Proof.
  apply (exec_preserves
           (λ w', ∃ t, trace w' = trace w ++ t ∧ Forall (deep d) t) d);
    [..|lia|].
  - intros w' event cb (t & Ht & Hd). unfold note_issue.
    destruct (On event (UserFn cb) (em w')).1.2; simpl; [eauto|].
    exists (t ++ [Issued (On event (UserFn cb) (em w')).1.1]).
    rewrite Ht, <-app_assoc. split; [done|]. apply Forall_app. split; [done|].
    by repeat constructor.
  - intros w' event cb (t & Ht & Hd).
    assert (Htr : trace (Once event cb w').2 = trace w').
    { unfold Once. simpl.
      by destruct (On event (OnceFn event (length (cells w')) cb) (em w')) as [[] ?]. }
    unfold note_issue. destruct (Once event cb w').1.2; simpl; rewrite Htr; [eauto|].
    exists (t ++ [Issued (Once event cb w').1.1]).
    rewrite Ht, <-app_assoc. split; [done|]. apply Forall_app. split; [done|].
    by repeat constructor.
  - done.
  - done.
  - done.
  - intros w' d' cb msg Hle (t & Ht & Hd). exists (t ++ [Invoke d' cb msg]).
    simpl. rewrite Ht, <-app_assoc. split; [done|]. apply Forall_app. split; [done|].
    by repeat constructor.
  - exists []. by rewrite app_nil_r.
Qed.

Lemma invoke_trace fuel d cb msg w :
  ∃ t, trace (invoke (exec fuel) d cb msg w).2 = trace w ++ t ∧
       Forall (deep (S d)) t.
Proof.
  destruct cb as [body|event c body]; unfold invoke.
  - apply exec_trace.
  - apply (exec_trace fuel (S d) (body msg)
             (with_em (Off event (default 0 (cells w !! c)) (em w)) w)).
Qed.

Lemma dispatch_calls fuel d callbacks msg :
  ∀ w, ∃ t,
    trace (dispatch (exec fuel) d callbacks msg w).2 = trace w ++ t ∧
    Forall (deep d) t ∧
    invoked_at d t `prefix_of` calls callbacks msg ∧
    ((dispatch (exec fuel) d callbacks msg w).1 = Finished →
     invoked_at d t = calls callbacks msg).
Proof.
  induction callbacks as [|cb rest IH]; intros w; simpl.
  - exists []. rewrite app_nil_r. by repeat split.
  - destruct (invoke_trace fuel d cb msg (record (Invoke d cb msg) w))
      as (t1 & Ht1 & Hd1).
    assert (Hhead : invoked_at d ([Invoke d cb msg] ++ t1) = [(cb, msg)]).
    { rewrite invoked_at_app, (invoked_at_deep _ _ Hd1), app_nil_r.
      unfold invoked_at; simpl. by rewrite Nat.eqb_refl. }
    assert (Hdeep : Forall (deep d) ([Invoke d cb msg] ++ t1)).
    { apply Forall_app. split; [by repeat constructor|].
      eapply Forall_impl; [exact Hd1|]. intros x. apply deep_mono. lia. }
    destruct (invoke (exec fuel) d cb msg (record (Invoke d cb msg) w))
      as [[] w1] eqn:E; simpl in Ht1.
    + destruct (IH w1) as (t2 & Ht2 & Hd2 & Hpre & Hall).
      exists (([Invoke d cb msg] ++ t1) ++ t2). split; [|split; [|split]].
      * rewrite Ht2, Ht1. by rewrite <-!app_assoc.
      * by apply Forall_app.
      * rewrite invoked_at_app, Hhead. simpl. by apply prefix_cons.
      * intros Hfin. rewrite invoked_at_app, Hhead, (Hall Hfin). done.
    + exists ([Invoke d cb msg] ++ t1). split; [|split; [|split]].
      * simpl. rewrite Ht1. by rewrite <-app_assoc.
      * done.
      * rewrite Hhead. simpl. apply prefix_cons. apply prefix_nil.
      * done.
Qed.

Lemma emit_free_finishes fuel d p :
  emit_free p → ∀ w, (exec fuel d p w).1 = Finished.
Proof.
  induction 1 as [|event cb k _ IH|event cb k _ IH|event i k _ IH|event k _ IH
                  |event k _ IH|k _ IH|x k _ IH|x v k _ IH]; intros w.
  - by rewrite exec_Done.
  - rewrite exec_DoOn. apply IH.
  - rewrite exec_DoOnce. apply IH.
  - rewrite exec_DoOff. apply IH.
  - rewrite exec_DoRemoveAll. apply IH.
  - rewrite exec_DoCount. apply IH.
  - rewrite exec_DoCountAll. apply IH.
  - rewrite exec_DoLoad. apply IH.
  - rewrite exec_DoStore. apply IH.
Qed.

Lemma dispatch_finishes fuel d callbacks msg :
  Forall (λ cb, emit_free (body_of cb msg)) callbacks →
  ∀ w, (dispatch (exec fuel) d callbacks msg w).1 = Finished.
Proof.
  induction 1 as [|cb rest Hcb _ IH]; intros w; simpl; [done|].
  assert (Hfin : (invoke (exec fuel) d cb msg (record (Invoke d cb msg) w)).1
                 = Finished).
  { destruct cb as [body|event c body]; unfold invoke; simpl in Hcb;
      by apply emit_free_finishes. }
  destruct (invoke (exec fuel) d cb msg (record (Invoke d cb msg) w)) as [o w1].
  simpl in Hfin. subst o. apply IH.
Qed.

(** C3.  An [Emit] running at depth [d] calls, from its own loop, the
    callbacks that the event's slice held when the call started, each with
    the message, whatever the callbacks do to the emitter meanwhile: what it
    has called is at every point a prefix of that list, and the whole list
    once it returns.  It returns when no callback of the list calls [Emit]
    itself.  With no listener for the event it returns at once and leaves
    the world as it was. *)
Theorem Emit_calls_snapshot (fuel d : nat) (event : string)
    (msg : ZagroMessage) (w : World) :
  (exec (S fuel) d (DoEmit event msg Done) w = Emit (exec fuel) d event msg w) ∧
  (∃ t, trace (Emit (exec fuel) d event msg w).2 = trace w ++ t ∧
        invoked_at d t `prefix_of`
          calls (callback <$> listeners_of event (em w)) msg ∧
        ((Emit (exec fuel) d event msg w).1 = Finished →
         invoked_at d t = calls (callback <$> listeners_of event (em w)) msg)) ∧
  (Forall (λ l, emit_free (body_of (callback l) msg)) (listeners_of event (em w)) →
   (Emit (exec fuel) d event msg w).1 = Finished) ∧
  (listeners_of event (em w) = [] →
   Emit (exec fuel) d event msg w = (Finished, w)).
Proof.
  split; [|split; [|split]].
  - rewrite exec_DoEmit_S.
    destruct (Emit (exec fuel) d event msg w) as [[] w1]; [|done].
    apply exec_Done.
  - unfold Emit.
    destruct (dispatch_calls fuel d (callback <$> listeners_of event (em w)) msg w)
      as (t & Ht & _ & Hpre & Hall).
    by exists t.
  - intros Hfree. unfold Emit. apply dispatch_finishes.
    by apply Forall_fmap.
  - intros Hnil. unfold Emit. by rewrite Hnil.
Qed.

(** ** Registration order *)

Lemma register_all_run fuel d event fs :
  ∀ w, room_for (len fs) event (em w) →
  ∃ w', (∀ k, exec fuel d (register_all event fs k) w = exec fuel d k w') ∧
        callback <$> listeners_of event (em w') =
          (callback <$> listeners_of event (em w)) ++ (UserFn <$> fs) ∧
        ∃ t, trace w' = trace w ++ t ∧ invoked_at d t = [].
Proof.
  induction fs as [|f fs IH]; intros w Hroom.
  - exists w. split; [done|]. simpl. rewrite app_nil_r. split; [done|].
    exists []. by rewrite app_nil_r.
  - assert (E : at_limit event (em w) = false).
    { apply not_true_is_false. rewrite at_limit_iff.
      unfold room_for, len in *. simpl in Hroom. lia. }
    pose proof (On_listeners event event (UserFn f) (em w)) as Hls.
    pose proof (On_maxListeners event (UserFn f) (em w)) as Hmax.
    rewrite decide_True in Hls by done.
    set (w1 := note_issue (On event (UserFn f) (em w)).1
                 (with_em (On event (UserFn f) (em w)).2 w)).
    assert (Hem1 : em w1 = (On event (UserFn f) (em w)).2)
      by (subst w1; by rewrite em_note_issue).
    assert (Htr1 : trace w1 = trace w ++ [Issued (On event (UserFn f) (em w)).1.1]).
    { subst w1. by rewrite (On_below_limit _ _ _ E). }
    assert (Hok : (On event (UserFn f) (em w)).1.2 = None)
      by (by rewrite (On_below_limit _ _ _ E)).
    rewrite Hok in Hls.
    destruct (IH w1) as (w' & Hrun & Hcbs & t & Ht & Hinv).
    { rewrite Hem1. unfold room_for in *. rewrite Hmax, Hls.
      unfold len in *. rewrite length_app. simpl in *. lia. }
    exists w'. split; [|split].
    + intros k. simpl. rewrite exec_DoOn. apply Hrun.
    + rewrite Hcbs, Hem1, Hls, fmap_app. simpl. by rewrite <-app_assoc.
    + exists ([Issued (On event (UserFn f) (em w)).1.1] ++ t).
      rewrite Ht, Htr1, <-app_assoc. split; [done|].
      by rewrite invoked_at_app, Hinv.
Qed.

(** C4.  A successful [On] puts its listener at the end of the event's
    slice.  When a client registers the functions of a list on an event, in
    order and within the limit, and then calls [Emit], that [Emit] calls the
    callbacks the event already had, in the order of the slice, and then
    the new ones in the order they were registered: in that order as far as
    it gets, and all of them when it returns, which it does when none of
    them calls [Emit] itself. *)
Theorem Emit_in_registration_order (fuel d : nat) (event : string)
    (fs : list (ZagroMessage → prog)) (msg : ZagroMessage) (w : World) :
  (∀ cb, (On event cb (em w)).1.2 = None →
     listeners_of event (On event cb (em w)).2 =
       listeners_of event (em w)
       ++ [{| id := (On event cb (em w)).1.1; callback := cb |}]) ∧
  (room_for (len fs) event (em w) →
   ∃ t,
     trace (exec (S fuel) d (register_all event fs (DoEmit event msg Done)) w).2
       = trace w ++ t ∧
     invoked_at d t `prefix_of`
       calls ((callback <$> listeners_of event (em w)) ++ (UserFn <$> fs)) msg ∧
     ((exec (S fuel) d (register_all event fs (DoEmit event msg Done)) w).1
        = Finished →
      invoked_at d t =
        calls ((callback <$> listeners_of event (em w)) ++ (UserFn <$> fs)) msg) ∧
     (Forall (λ l, emit_free (body_of (callback l) msg)) (listeners_of event (em w)) →
      Forall (λ f, emit_free (f msg)) fs →
      (exec (S fuel) d (register_all event fs (DoEmit event msg Done)) w).1
        = Finished)).
Proof.
  split.
  - intros cb Hok. pose proof (On_listeners event event cb (em w)) as Hls.
    rewrite decide_True in Hls by done. by rewrite Hok in Hls.
  - intros Hroom.
    destruct (register_all_run (S fuel) d event fs w Hroom)
      as (w' & Hrun & Hcbs & t1 & Ht1 & Hinv1).
    rewrite Hrun.
    destruct (Emit_calls_snapshot fuel d event msg w')
      as (-> & (t2 & Ht2 & Hpre & Hall) & Hfin & _).
    rewrite Hcbs in Hpre, Hall.
    exists (t1 ++ t2). split; [|split; [|split]].
    + by rewrite Ht2, Ht1, <-app_assoc.
    + by rewrite invoked_at_app, Hinv1.
    + intros Hdone. rewrite invoked_at_app, Hinv1. by apply Hall.
    + intros Hold Hnew. apply Hfin.
      apply Forall_forall. intros l Hl.
      assert (Hin : callback l ∈ callback <$> listeners_of event (em w'))
        by (apply list_elem_of_fmap; eauto).
      rewrite Hcbs in Hin. apply elem_of_app in Hin as [Hin|Hin];
        apply list_elem_of_fmap in Hin as (y & -> & Hy).
      * rewrite Forall_forall in Hold. by apply Hold.
      * rewrite Forall_forall in Hnew. by apply Hnew.
Qed.

(** ** Once *)

(** The wrapper takes its listener out before the user's callback runs:
    the callback starts in the state [Off] has left. *)
Lemma once_wrapper_removes_first run d event c body msg w :
  invoke run d (OnceFn event c body) msg w =
  run (S d) (body msg)
      (with_em (Off event (default 0 (cells w !! c)) (em w)) w).
Proof. done. Qed.

(** The test's scenario: the callback has run once after two [Emit]s, and
    the event has no listener left. *)
Example once_then_two_emits_runs_once :
  (exec 1 0 once_then_two_emits (fresh [])).1 = Finished ∧
  vars (exec 1 0 once_then_two_emits (fresh [])).2 !! "onceCalled" = Some 1 ∧
  (Count "event2" (em (exec 1 0 once_then_two_emits (fresh [])).2)).1 = 0.
Proof. vm_compute. done. Qed.

(** [TestEventEmitter] passes on the model: the third [On] fails, both
    handlers have run twice and the third never, the once-callback once,
    and the counts are the ones the test expects. *)
Example TestEventEmitter_passes :
  (exec 1 0 TestEventEmitter (fresh [{| MaxListeners := 2 |}])).1 = Finished ∧
  (λ x, vars (exec 1 0 TestEventEmitter (fresh [{| MaxListeners := 2 |}])).2 !! x)
    <$> ["third_failed"; "h1"; "h2"; "h3"; "onceCalled";
         "count1"; "count2"; "countAll"; "afterOff"; "afterRemoveAll"]
  = [Some 1; Some 2; Some 2; None; Some 1;
     Some 2; Some 0; Some 2; Some 1; Some 0].
Proof. vm_compute. done. Qed.

(** C1 fails on the code.  With two once-listeners on one event, the first
    of which emits the event again, a single [Emit] by the client calls the
    second one's wrapper twice, and its callback has run twice: the nested
    [Emit] calls it and removes it, and the outer [Emit] still has it in
    its copy of the callbacks. *)
Theorem reentrant_once_runs_twice :
  (exec 2 0 reentrant_once (fresh [])).1 = Finished ∧
  vars (exec 2 0 reentrant_once (fresh [])).2 !! "onceCalled" = Some 2 ∧
  length (filter (λ x, calls_once 1 x = true)
                 (trace (exec 2 0 reentrant_once (fresh [])).2)) = 2%nat ∧
  issued (exec 2 0 reentrant_once (fresh [])).2 = [1; 2] ∧
  (Count "e" (em (exec 2 0 reentrant_once (fresh [])).2)).1 = 0.
Proof. vm_compute. done. Qed.

(** ** Once-wrappers in reachable states *)

Lemma On_listeners_elem event event' cb e l :
  l ∈ listeners_of event' (On event cb e).2 →
  l ∈ listeners_of event' e ∨
  (event' = event ∧ (On event cb e).1.2 = None ∧
   l = {| id := (On event cb e).1.1; callback := cb |}).
Proof.
  rewrite On_listeners. destruct (decide (event = event')) as [<-|]; [|by left].
  destruct (On event cb e).1.2; [by left|].
  rewrite elem_of_app, list_elem_of_singleton. intros [?| ->]; [by left|by right].
Qed.

Lemma Once_cells event f w :
  cells (Once event f w).2 =
  <[length (cells w) := (Once event f w).1.1]> (cells w ++ [0]).
Proof.
  unfold Once. simpl.
  by destruct (On event (OnceFn event (length (cells w)) f) (em w)) as [[] ?].
Qed.

Lemma Once_trace event f w : trace (Once event f w).2 = trace w.
Proof.
  unfold Once. simpl.
  by destruct (On event (OnceFn event (length (cells w)) f) (em w)) as [[] ?].
Qed.

Lemma Once_cells_old event f w c :
  (c < length (cells w))%nat →
  (c < length (cells (Once event f w).2))%nat ∧
  cells (Once event f w).2 !! c = cells w !! c.
Proof.
  intros Hc. rewrite Once_cells. rewrite length_insert, length_app. simpl.
  split; [lia|]. rewrite list_lookup_insert_ne by lia. by apply lookup_app_l.
Qed.

Lemma Once_cells_new event f w :
  cells (Once event f w).2 !! length (cells w) = Some (Once event f w).1.1.
Proof.
  rewrite Once_cells. apply list_lookup_insert_eq.
  rewrite length_app. simpl. lia.
Qed.

(** What [Off] does to the slice of its event. *)
Lemma Off_slice event target e :
  ((target ∉ (id <$> listeners_of event e)) ∧
   listeners_of event (Off event target e) = listeners_of event e) ∨
  (∃ l1 x l2,
     listeners_of event e = l1 ++ x :: l2 ∧ id x = target ∧
     Forall (λ y, id y ≠ target) l1 ∧
     listeners_of event (Off event target e) = l1 ++ l2).
Proof.
  destruct (events e !! event) as [ls|] eqn:Hev.
  - assert (Hls : listeners_of event e = ls)
      by (unfold listeners_of; by rewrite Hev).
    destruct (find_id target ls) as [i|] eqn:E.
    + right. apply find_id_Some in E as (l1 & x & l2 & -> & _ & Hx & Hl1 & _).
      exists l1, x, l2. rewrite (Off_match _ _ _ _ _ _ Hev Hx Hl1).
      repeat split; try done.
      unfold listeners_of; simpl. destruct (decide (l1 ++ l2 = [])) as [->|].
      * by rewrite lookup_delete_eq.
      * by rewrite lookup_insert_eq.
    + left. apply find_id_None in E. split.
      * rewrite Hls. intros Hin. apply list_elem_of_fmap in Hin as (y & -> & Hy).
        rewrite Forall_forall in E. by apply E in Hy.
      * destruct ls as [|y ls]; [|by rewrite (Off_no_match _ _ _ _ Hev)].
        unfold Off. rewrite Hev. cbn [find_id]. rewrite Hls.
        change (len (@nil listener) =? 0) with true. cbv iota.
        by rewrite listeners_of_delete, decide_True.
  - left. rewrite Off_absent by done. split; [|done].
    unfold listeners_of. rewrite Hev. simpl. by intros ?%elem_of_nil.
Qed.

Lemma once_ok_fresh opts : once_ok (fresh opts).
Proof.
  intros event l ev c f. unfold listeners_of; simpl. rewrite lookup_empty; simpl.
  by intros ?%elem_of_nil.
Qed.

Lemma exec_once_ok fuel d p w : once_ok w → once_ok (exec fuel d p w).2.
Proof.
  apply (exec_preserves once_ok 0); [..|lia].
  - intros w' event cb H event' l ev c f. rewrite em_note_issue. simpl.
    intros [Hin|(_ & _ & ->)]%On_listeners_elem Hcb; [|done].
    unfold note_issue. destruct (On event (UserFn cb) (em w')).1.2; by eapply H.
  - intros w' event cb H event' l ev c f. rewrite em_note_issue.
    destruct (Once_result event cb w') as [Hres Hem]. rewrite Hem.
    assert (Hcells : cells (note_issue (Once event cb w').1 (Once event cb w').2)
                     = cells (Once event cb w').2)
      by (unfold note_issue; by destruct (Once event cb w').1.2).
    rewrite Hcells.
    intros [Hin|(-> & _ & ->)]%On_listeners_elem Hcb.
    + destruct (H _ _ _ _ _ Hin Hcb) as [-> Hc]. split; [done|].
      pose proof (lookup_lt_Some _ _ _ Hc) as Hlt.
      destruct (Once_cells_old event cb w' c Hlt) as [_ ->]. done.
    + simpl in Hcb. injection Hcb as <- <- <-. split; [done|].
      simpl. rewrite <-Hres. apply Once_cells_new.
  - intros w' event i H event' l ev c f Hin. simpl in *.
    apply Off_listeners_subset in Hin. by apply H.
  - intros w' event H event' l ev c f. simpl. unfold RemoveAll.
    rewrite listeners_of_delete.
    destruct (decide (event = event')); [by intros ?%elem_of_nil | apply H].
  - done.
  - done.
Qed.

Lemma reachable_once_ok w : reachable w → once_ok w.
Proof.
  intros (opts & fuel & p & o & Hrun).
  pose proof (exec_once_ok fuel 0 p (fresh opts) (once_ok_fresh opts)) as H.
  by rewrite Hrun in H.
Qed.

(** ** Ids of the listeners in the map *)

Lemma live_ids_ok_NewZagro opts : live_ids_ok (NewZagro opts).
Proof.
  split.
  - intros event. unfold listeners_of; simpl. rewrite lookup_empty. constructor.
  - intros ev1 ev2 l1 l2. unfold listeners_of; simpl. rewrite lookup_empty; simpl.
    by intros ?%elem_of_nil.
Qed.

Lemma live_ids_ok_On event cb e :
  live_ids_ok e →
  (∀ event' l, l ∈ listeners_of event' e → id l ≠ (On event cb e).1.1) →
  live_ids_ok (On event cb e).2.
Proof.
  intros [Hnd Hap] Hnew. split.
  - intros event'. rewrite On_listeners.
    destruct (decide (event = event')) as [<-|]; [|done].
    destruct (On event cb e).1.2; [done|].
    rewrite fmap_app. apply NoDup_app. split; [done|]. split.
    + intros i Hin Hi. simpl in Hi. apply list_elem_of_singleton in Hi as ->.
      apply list_elem_of_fmap in Hin as (l & Heq & Hl). by eapply Hnew.
    + simpl. apply NoDup_singleton.
  - intros ev1 ev2 l1 l2
      [H1|(-> & _ & ->)]%On_listeners_elem [H2|(-> & _ & ->)]%On_listeners_elem Heq.
    + by eapply Hap.
    + simpl in Heq. by apply Hnew in H1.
    + simpl in Heq. symmetry in Heq. by apply Hnew in H2.
    + done.
Qed.

Lemma live_ids_ok_Off event target e : live_ids_ok e → live_ids_ok (Off event target e).
Proof.
  intros [Hnd Hap]. split.
  - intros event'. destruct (decide (event = event')) as [<-|Hne];
      [|by rewrite Off_listeners_other].
    destruct (Off_slice event target e)
      as [[_ ->]|(l1 & x & l2 & Hls & _ & _ & ->)]; [done|].
    specialize (Hnd event). rewrite Hls in Hnd.
    rewrite fmap_app in *. simpl in Hnd.
    apply NoDup_app in Hnd as (H1 & H12 & H2). apply NoDup_cons in H2 as [_ H2].
    apply NoDup_app. split; [done|]. split; [|done].
    intros i Hi Hi2. apply (H12 i Hi). by right.
  - intros ev1 ev2 l1 l2 H1%Off_listeners_subset H2%Off_listeners_subset.
    by eapply Hap.
Qed.

Lemma live_ids_ok_RemoveAll event e : live_ids_ok e → live_ids_ok (RemoveAll event e).
Proof.
  intros [Hnd Hap].
  assert (Hsub : ∀ event' l, l ∈ listeners_of event' (RemoveAll event e) →
                             l ∈ listeners_of event' e).
  { intros event' l. unfold RemoveAll. rewrite listeners_of_delete.
    destruct (decide (event = event')); [by intros ?%elem_of_nil | done]. }
  split.
  - intros event'. unfold RemoveAll. rewrite listeners_of_delete.
    destruct (decide (event = event')); [constructor | done].
  - intros ev1 ev2 l1 l2 H1%Hsub H2%Hsub. by eapply Hap.
Qed.

(** Under the account of the ids, a registration keeps the ids in the map
    distinct as long as the counter has not wrapped. *)
Lemma live_ids_ok_register event cb w w' :
  ids_ok w → (len (issued w) < 2 ^ 64 → live_ids_ok (em w)) →
  em w' = (On event cb (em w)).2 → trace w' = trace w →
  len (issued (note_issue (On event cb (em w)).1 w')) < 2 ^ 64 →
  live_ids_ok (em (note_issue (On event cb (em w)).1 w')).
Proof.
  intros Hok Hlive Hem Htr Hlen.
  pose proof (ids_ok_register event cb w w' Hok Hem Htr) as Hok'.
  destruct (ids_ok_NoDup _ Hok' Hlen) as [Hnd _].
  assert (Hiss : issued w' = issued w) by (unfold issued; by rewrite Htr).
  rewrite em_note_issue, Hem. unfold note_issue in Hlen, Hnd.
  destruct (On event cb (em w)).1.2 eqn:Herr.
  - rewrite Hiss in Hlen.
    assert (E : at_limit event (em w) = true).
    { apply (On_error_iff event cb). by rewrite Herr. }
    rewrite (On_at_limit _ _ _ E). by apply Hlive.
  - rewrite issued_record_Issued, Hiss in Hlen, Hnd.
    unfold len in Hlen. rewrite length_app in Hlen. simpl in Hlen.
    apply live_ids_ok_On; [apply Hlive; unfold len; lia|].
    intros event' l Hl Heq. apply NoDup_app in Hnd as (_ & Hnew & _).
    apply (Hnew (id l)).
    + destruct Hok as [_ _ Hlv]. by eapply Hlv.
    + rewrite Heq. by left.
Qed.

Lemma live_ids_closed :
  step_closed (λ w, ids_ok w ∧ (len (issued w) < 2 ^ 64 → live_ids_ok (em w)))
              (λ _, True) 0.
Proof.
  unfold step_closed. repeat apply conj.
  - intros w' event cb [Hok Hlive]. split.
    + by apply ids_ok_register.
    + by apply live_ids_ok_register.
  - intros w' event cb [Hok Hlive].
    destruct (Once_result event cb w') as [-> Hem]. split.
    + apply (ids_ok_register _ _ w'); [done | done | apply Once_trace].
    + apply (live_ids_ok_register _ _ w'); [done | done | done | apply Once_trace].
  - intros w' event i [Hok Hlive]. split.
    + apply ids_ok_shrink; [done | apply Off_nextID |].
      intros event' l. apply Off_listeners_subset.
    + intros Hlen. apply live_ids_ok_Off. by apply Hlive.
  - intros w' event [Hok Hlive]. split.
    + apply ids_ok_shrink; [done | done |].
      intros event' l. unfold RemoveAll. rewrite listeners_of_delete.
      destruct (decide (event = event')); [by intros ?%elem_of_nil | done].
    + intros Hlen. apply live_ids_ok_RemoveAll. by apply Hlive.
  - intros w' x v [[Hc Hi Hl] Hlive]. by split.
  - intros w' event _. by apply Forall_forall.
  - intros w' d' cb msg _ _ [[Hc Hi Hl] Hlive]. split.
    + split; rewrite ?issued_record_Invoke; done.
    + rewrite issued_record_Invoke. done.
Qed.

Lemma reachable_live_ids_ok w :
  reachable w → len (issued w) < 2 ^ 64 → live_ids_ok (em w).
Proof.
  intros (opts & fuel & p & o & Hrun).
  pose proof (closed_exec _ _ _ live_ids_closed fuel 0 p (fresh opts)
                ltac:(lia)) as H.
  rewrite Hrun in H. apply H. split; [apply ids_ok_fresh|].
  intros _. apply live_ids_ok_NewZagro.
Qed.

Lemma cells_note_issue r w : cells (note_issue r w) = cells w.
Proof. unfold note_issue. by destruct r.2. Qed.

(** Who holds the wrapper of an allocated cell only changes by removal:
    a later [Once] allocates a new cell and leaves the old ones alone. *)
Lemma holders_closed c A : step_closed (holders_in c A) (λ _, True) 0.
Proof.
  unfold step_closed. repeat apply conj.
  - intros w event cb [Hc H]. split; rewrite cells_note_issue; [done|].
    intros event' l. rewrite em_note_issue. simpl.
    intros [Hin|(_ & _ & ->)]%On_listeners_elem Hcell; [by apply H | done].
  - intros w event cb [Hc H].
    destruct (Once_cells_old event cb w c Hc) as [Hc' Hsame].
    destruct (Once_result event cb w) as [_ Hem].
    split; rewrite cells_note_issue; [done|].
    intros event' l. rewrite em_note_issue, Hem, Hsame.
    intros [Hin|(_ & _ & ->)]%On_listeners_elem Hcell; [by apply H|].
    simpl in Hcell. injection Hcell as Hcell. lia.
  - intros w event i [Hc H]. split; [done|].
    intros event' l Hin%Off_listeners_subset. by apply H.
  - intros w event [Hc H]. split; [done|].
    intros event' l. simpl. unfold RemoveAll. rewrite listeners_of_delete.
    destruct (decide (event = event')); [by intros ?%elem_of_nil | apply H].
  - done.
  - intros w event _. by apply Forall_forall.
  - done.
Qed.

Lemma once_count_app c t1 t2 :
  once_count c (t1 ++ t2) = (once_count c t1 + once_count c t2)%nat.
Proof. unfold once_count. by rewrite filter_app, length_app. Qed.

Lemma once_count_Invoke c d cb msg :
  once_count c [Invoke d cb msg] = if decide (cell_of cb = Some c) then 1%nat else 0%nat.
Proof.
  destruct cb as [body|event c' body]; simpl; [done|].
  unfold once_count, filter; simpl.
  destruct (Nat.eqb_spec c' c) as [->|Hne].
  - rewrite decide_True by done. by rewrite decide_True.
  - rewrite decide_False by done. rewrite decide_False; [done|]. congruence.
Qed.

Lemma once_count_note_issue c r w :
  once_count c (trace (note_issue r w)) = once_count c (trace w).
Proof.
  unfold note_issue. destruct r.2; [done|]. simpl.
  rewrite once_count_app. unfold once_count at 2; simpl. lia.
Qed.

(** Once the wrapper of cell [c] has left the map, no run puts it back and
    no dispatch, however deep, calls it. *)
Lemma gone_closed c n :
  step_closed (λ w, gone c w ∧ once_count c (trace w) = n)
              (λ cb, cell_of cb ≠ Some c) 0.
Proof.
  destruct (holders_closed c (λ _ _ _, False)) as (G1 & G2 & G3 & G4 & G5 & _ & G7).
  unfold step_closed. repeat apply conj.
  - intros w event cb [Hg Hn]. split; [by apply G1|].
    by rewrite once_count_note_issue.
  - intros w event cb [Hg Hn]. split; [by apply G2|].
    by rewrite once_count_note_issue, Once_trace.
  - intros w event i [Hg Hn]. split; [by apply G3 | done].
  - intros w event [Hg Hn]. split; [by apply G4 | done].
  - intros w x v [Hg Hn]. split; [by apply G5 | done].
  - intros w event [[_ Hg] _]. apply Forall_forall.
    intros cb (l & -> & Hl)%list_elem_of_fmap Hcell. by eapply Hg.
  - intros w d cb msg Hd Hcb [Hg Hn]. split; [by apply G7|].
    simpl. rewrite once_count_app, once_count_Invoke, decide_False by done. lia.
Qed.

Lemma emit_free_quiet c fuel d p :
  emit_free p → ∀ w,
  once_count c (trace (exec fuel d p w).2) = once_count c (trace w).
Proof.
  induction 1 as [|event cb k _ IH|event cb k _ IH|event i k _ IH|event k _ IH
                  |event k _ IH|k _ IH|x k _ IH|x v k _ IH]; intros w.
  - by rewrite exec_Done.
  - rewrite exec_DoOn, IH. by rewrite once_count_note_issue.
  - rewrite exec_DoOnce, IH. by rewrite once_count_note_issue, Once_trace.
  - by rewrite exec_DoOff, IH.
  - by rewrite exec_DoRemoveAll, IH.
  - by rewrite exec_DoCount, IH.
  - by rewrite exec_DoCountAll, IH.
  - by rewrite exec_DoLoad, IH.
  - by rewrite exec_DoStore, IH.
Qed.

Lemma dispatch_app run d cbs1 cbs2 msg w :
  dispatch run d (cbs1 ++ cbs2) msg w =
  match dispatch run d cbs1 msg w with
  | (Finished, w1) => dispatch run d cbs2 msg w1
  | stuck => stuck
  end.
Proof.
  revert w. induction cbs1 as [|cb rest IH]; intros w; simpl; [done|].
  destruct (invoke run d cb msg (record (Invoke d cb msg) w)) as [[] w1];
    [apply IH | done].
Qed.

(** Callbacks that neither call [Emit] nor are the wrapper of cell [c]:
    their dispatch returns and leaves the count of cell [c] alone. *)
Lemma dispatch_quiet c fuel d msg callbacks :
  Forall (λ cb, emit_free (body_of cb msg)) callbacks →
  Forall (λ cb, cell_of cb ≠ Some c) callbacks →
  ∀ w, (dispatch (exec fuel) d callbacks msg w).1 = Finished ∧
       once_count c (trace (dispatch (exec fuel) d callbacks msg w).2)
       = once_count c (trace w).
Proof.
  intros Hfree Hother w. split; [by apply dispatch_finishes|].
  revert w. induction callbacks as [|cb rest IH]; intros w; simpl; [done|].
  apply Forall_cons in Hfree as [Hcb Hfree].
  apply Forall_cons in Hother as [Hc Hother].
  assert (Hq : once_count c (trace (invoke (exec fuel) d cb msg
                                      (record (Invoke d cb msg) w)).2)
               = once_count c (trace w)).
  { destruct cb as [body|event c' body]; unfold invoke; simpl in Hcb;
      rewrite emit_free_quiet by done; simpl;
      rewrite once_count_app, once_count_Invoke, decide_False by done; lia. }
  destruct (invoke (exec fuel) d cb msg (record (Invoke d cb msg) w)) as [[] w1];
    simpl in Hq; [|done].
  rewrite IH by done. done.
Qed.

(** ** A once-listener among listeners that do not re-enter [Emit] *)

Lemma issued_mono_closed n :
  step_closed (λ w, n ≤ len (issued w)) (λ _, True) 0.
Proof.
  assert (Hnote : ∀ r w w', trace w' = trace w →
                            n ≤ len (issued w) → n ≤ len (issued (note_issue r w'))).
  { intros r w w' Htr Hn. unfold note_issue.
    assert (Hiss : issued w' = issued w) by (unfold issued; by rewrite Htr).
    destruct r.2; [by rewrite Hiss|].
    rewrite issued_record_Issued, Hiss. unfold len in *. rewrite length_app. lia. }
  unfold step_closed. repeat apply conj; try done.
  - intros w event cb Hn. by apply (Hnote _ w).
  - intros w event cb Hn. apply (Hnote _ w); [apply Once_trace | done].
  - intros w event _. by apply Forall_forall.
  - intros w d cb msg _ _ Hn. by rewrite issued_record_Invoke.
Qed.

Lemma NoDup_fmap_eq {A B} (g : A → B) (ls : list A) x y :
  NoDup (g <$> ls) → x ∈ ls → y ∈ ls → g x = g y → x = y.
Proof.
  intros Hnd [i Hi]%list_elem_of_lookup [j Hj]%list_elem_of_lookup Heq.
  assert (i = j) as ->.
  { apply (NoDup_lookup (g <$> ls) i j (g x)); [done| |].
    - by rewrite list_lookup_fmap, Hi.
    - by rewrite list_lookup_fmap, Hj, Heq. }
  congruence.
Qed.

(** In a state with sound wrappers and distinct ids, a once-wrapper found
    in the map is the only holder of its cell. *)
Lemma pinned_at w event l c f :
  once_ok w → live_ids_ok (em w) →
  l ∈ listeners_of event (em w) → callback l = OnceFn event c f →
  pinned c event f w.
Proof.
  intros Hok [Hnd Hap] Hl Hcb.
  destruct (Hok _ _ _ _ _ Hl Hcb) as [_ Hcell].
  split; [by eapply lookup_lt_Some|].
  intros event' l' Hl' Hc'.
  destruct (callback l') as [|ev' c' f'] eqn:Hcb'; [done|].
  simpl in Hc'. injection Hc' as ->.
  destruct (Hok _ _ _ _ _ Hl' Hcb') as [-> Hcell'].
  assert (Hid : id l' = id l) by congruence.
  assert (event' = event) as -> by (by eapply Hap).
  assert (l' = l) as -> by (by eapply (NoDup_fmap_eq id)).
  rewrite Hcb in Hcb'. by injection Hcb' as <-.
Qed.

(** What the wrapper's call of [Off] achieves: its own listener is out. *)
Lemma wrapper_leaves c event f w :
  pinned c event f w → live_ids_ok (em w) →
  gone c (with_em (Off event (default 0 (cells w !! c)) (em w)) w).
Proof.
  intros [Hc Hpin] [Hnd _]. split; [done|].
  intros event' l Hin Hcell. simpl in *.
  pose proof (Off_listeners_subset _ _ _ _ _ Hin) as Hold.
  destruct (Hpin _ _ Hold Hcell) as (-> & _ & Hv). rewrite Hv in Hin. simpl in Hin.
  destruct (Off_slice event (id l) (em w))
    as [[Hno _]|(l1 & x & l2 & Hls & Hx & _ & Hnew)].
  - apply Hno. apply list_elem_of_fmap. eauto.
  - specialize (Hnd event). rewrite Hls, fmap_app in Hnd. simpl in Hnd.
    apply NoDup_app in Hnd as (_ & H12 & H2). apply NoDup_cons in H2 as [Hx2 _].
    rewrite Hnew in Hin. apply elem_of_app in Hin as [Hin|Hin].
    + apply (H12 (id l)); [apply list_elem_of_fmap; eauto|]. rewrite Hx. by left.
    + apply Hx2. rewrite Hx. apply list_elem_of_fmap. eauto.
Qed.

Lemma closed_tail P found d0 :
  step_closed P found d0 →
  ∀ fuel d callbacks msg k w, (d0 ≤ d)%nat → Forall found callbacks → P w →
  P (match dispatch (exec fuel) d callbacks msg w with
     | (Finished, w1) => exec (S fuel) d k w1
     | stuck => stuck
     end).2.
Proof.
  intros Hclosed fuel d callbacks msg k w Hd Hcbs Hw.
  pose proof (closed_dispatch P found d0 Hclosed fuel callbacks d msg w Hd Hcbs Hw)
    as Hdisp.
  destruct (dispatch (exec fuel) d callbacks msg w) as [[] w1].
  - exact (closed_exec P found d0 Hclosed (S fuel) d k w1 Hd Hdisp).
  - exact Hdisp.
Qed.

(** X1.  A once-listener that is in the map when [Emit] starts, behind listeners
    that do not call [Emit] themselves: whatever its own callback, the
    listeners after it and the client do next (nested [Emit]s included),
    its wrapper is called exactly once, by this [Emit], and is out of the
    map for good -- as long as the counter of ids does not wrap. *)
Theorem once_runs_once (w : World) (event : string) (c : nat)
    (f : ZagroMessage → prog) (l : listener) (ls1 ls2 : list listener)
    (msg : ZagroMessage) (fuel d : nat) (k : prog) :
  reachable w →
  listeners_of event (em w) = ls1 ++ l :: ls2 →
  callback l = OnceFn event c f →
  Forall (λ l', emit_free (body_of (callback l') msg)) ls1 →
  len (issued (exec (S fuel) d (DoEmit event msg k) w).2) < 2 ^ 64 →
  once_count c (trace (exec (S fuel) d (DoEmit event msg k) w).2)
    = S (once_count c (trace w)) ∧
  gone c (exec (S fuel) d (DoEmit event msg k) w).2.
Proof.
  intros Hr Hls Hcb Hfree Hbound.
  (* the state the [Emit] starts in *)
  assert (Hw : len (issued w) < 2 ^ 64).
  { pose proof (closed_exec _ _ _ (issued_mono_closed (len (issued w)))
                  (S fuel) d (DoEmit event msg k) w ltac:(lia)
                  (Z.le_refl _)) as Hmono.
    cbv beta in Hmono. lia. }
  pose proof (reachable_live_ids_ok w Hr Hw) as Hlive.
  assert (Hl : l ∈ listeners_of event (em w)).
  { rewrite Hls. apply elem_of_app. right. by left. }
  pose proof (pinned_at w event l c f (reachable_once_ok w Hr) Hlive Hl Hcb) as Hpin.
  assert (Hothers : ∀ l', l' ∈ ls1 ++ ls2 → cell_of (callback l') ≠ Some c).
  { intros l' Hl' Hcell.
    assert (Hin : l' ∈ listeners_of event (em w)).
    { rewrite Hls. rewrite elem_of_app in *. rewrite elem_of_cons. tauto. }
    destruct Hpin as [_ Hpin].
    destruct (Hpin _ _ Hin Hcell) as (_ & _ & Hv).
    destruct (Hpin _ _ Hl) as (_ & _ & Hv'); [by rewrite Hcb|].
    assert (Hid : id l' = id l) by congruence.
    destruct Hlive as [Hnd _]. specialize (Hnd event).
    rewrite Hls, fmap_app in Hnd. simpl in Hnd.
    apply NoDup_app in Hnd as (_ & H12 & H2). apply NoDup_cons in H2 as [Hx2 _].
    apply elem_of_app in Hl' as [Hl'|Hl'].
    - apply (H12 (id l')); [apply list_elem_of_fmap; eauto|]. rewrite Hid. by left.
    - apply Hx2. rewrite <-Hid. apply list_elem_of_fmap. eauto. }
  assert (Hcbs1 : Forall (λ cb, cell_of cb ≠ Some c) (callback <$> ls1)).
  { apply Forall_forall. intros cb (l' & -> & Hl')%list_elem_of_fmap.
    apply Hothers, elem_of_app. by left. }
  assert (Hcbs2 : Forall (λ cb, cell_of cb ≠ Some c) (callback <$> ls2)).
  { apply Forall_forall. intros cb (l' & -> & Hl')%list_elem_of_fmap.
    apply Hothers, elem_of_app. by right. }
  assert (Hfree1 : Forall (λ cb, emit_free (body_of cb msg)) (callback <$> ls1)).
  { apply Forall_forall. intros cb (l' & -> & Hl')%list_elem_of_fmap.
    rewrite Forall_forall in Hfree. by apply Hfree. }
  (* the listeners before it *)
  rewrite exec_DoEmit_S in Hbound |- *. unfold Emit in Hbound |- *.
  rewrite Hls, fmap_app, fmap_cons, Hcb, dispatch_app in Hbound |- *.
  destruct (dispatch_quiet c fuel d msg _ Hfree1 Hcbs1 w) as [Hfin Hcount].
  pose proof (closed_dispatch _ _ _
                (closed_and _ _ _ _ live_ids_closed
                   (holders_closed c (λ event' l0 v,
                      event' = event ∧ callback l0 = OnceFn event c f ∧
                      v = Some (id l0))))
                fuel (callback <$> ls1) d msg w ltac:(lia)
                ltac:(by apply Forall_forall)
                (conj (conj (reachable_ids_ok w Hr) (λ _, Hlive)) Hpin))
    as [[Hok2 Hlive2] Hpin2].
  destruct (dispatch (exec fuel) d (callback <$> ls1) msg w) as [o2 w2].
  simpl in Hfin, Hcount, Hok2, Hlive2, Hpin2. subst o2.
  assert (Hw2 : len (issued w2) < 2 ^ 64).
  { pose proof (closed_tail _ _ _ (issued_mono_closed (len (issued w2)))
                  fuel d (OnceFn event c f :: (callback <$> ls2)) msg k w2
                  ltac:(lia) ltac:(by apply Forall_forall)
                  (Z.le_refl _)) as Hmono.
    cbv beta in Hmono. lia. }
  specialize (Hlive2 Hw2). clear Hbound.
  (* the wrapper is called: it removes its listener, then runs [f] *)
  cbn [dispatch]. rewrite once_wrapper_removes_first.
  set (w3 := with_em _ (record (Invoke d (OnceFn event c f) msg) w2)).
  assert (Hg3 : gone c w3 ∧ once_count c (trace w3) = S (once_count c (trace w))).
  { split.
    - apply (wrapper_leaves c event f (record (Invoke d (OnceFn event c f) msg) w2));
        [|done].
      destruct (holders_closed c (λ event' l0 v,
                  event' = event ∧ callback l0 = OnceFn event c f ∧
                  v = Some (id l0))) as (_ & _ & _ & _ & _ & _ & H7).
      unfold pinned in *. apply H7; [lia | done | exact Hpin2].
    - subst w3. simpl. rewrite once_count_app, once_count_Invoke.
      rewrite decide_True by done. lia. }
  pose proof (closed_exec _ _ _ (gone_closed c (S (once_count c (trace w))))
                fuel (S d) (f msg) w3 ltac:(lia) Hg3) as Hg4.
  destruct (exec fuel (S d) (f msg) w3) as [[] w4]; simpl in Hg4.
  - (* the listeners after it, and what the client does next *)
    pose proof (closed_tail _ _ _ (gone_closed c (S (once_count c (trace w))))
                  fuel d (callback <$> ls2) msg k w4 ltac:(lia) Hcbs2 Hg4) as Hg5.
    destruct Hg5 as [Hg Hn]. done.
  - destruct Hg4 as [Hg Hn]. done.
Qed.

(** X2.  In a reachable state, as long as the counter of ids has not
    wrapped, no two listeners in the map have the same id, on one event or
    on two. *)
Theorem live_ids_distinct (w : World) :
  reachable w → len (issued w) < 2 ^ 64 →
  (∀ event, NoDup (id <$> listeners_of event (em w))) ∧
  (∀ ev1 ev2 l1 l2,
     l1 ∈ listeners_of ev1 (em w) → l2 ∈ listeners_of ev2 (em w) →
     id l1 = id l2 → ev1 = ev2 ∧ l1 = l2).
Proof.
  intros Hr Hlen. destruct (reachable_live_ids_ok w Hr Hlen) as [Hnd Hap].
  split; [done|]. intros ev1 ev2 l1 l2 H1 H2 Heq.
  assert (ev1 = ev2) as -> by (by eapply Hap). split; [done|].
  by eapply (NoDup_fmap_eq id).
Qed.

(** ** The theorems at concrete inputs *)

Lemma two_on_e_reachable limit : reachable (two_on_e limit).
Proof. apply reachable_run. Qed.

Lemma limit_enforced_witness :
  0 < maxListeners (em (two_on_e 2)) ∧
  (On "e" (UserFn noop) (em (two_on_e 2))).1.2 ≠ None ∧
  On "e" (UserFn noop) (em (two_on_e 2))
    = ((0, Some (limit_error "e")), em (two_on_e 2)) ∧
  (On "f" (UserFn noop) (On "e" (UserFn noop) (em (two_on_e 2))).2).1.2 = None ∧
  (On "e" (UserFn noop) (Off "e" 1 (em (two_on_e 2)))).1.2 = None ∧
  (On "e" (UserFn noop) (em (two_on_e 0))).1.2 = None.
Proof.
  pose proof (limit_enforced (em (two_on_e 2)) "e" (UserFn noop)) as [H2 _].
  pose proof (limit_enforced (em (two_on_e 0)) "e" (UserFn noop)) as [_ H0].
  assert (Hpos : 0 < maxListeners (em (two_on_e 2))) by (vm_compute; done).
  destruct (H2 Hpos) as (Hiff & Hfail & _ & _ & Hother & Hoff).
  assert (Herr : (On "e" (UserFn noop) (em (two_on_e 2))).1.2 ≠ None).
  { apply Hiff. vm_compute. discriminate. }
  split; [done|]. split; [done|]. split; [by apply Hfail|]. split; [|split].
  - destruct (Hother "f" ltac:(discriminate)) as [_ ->]. vm_compute. done.
  - apply Hoff; [vm_compute; done|]. vm_compute. by left.
  - apply H0. vm_compute. done.
Defined.

(** Callbacks that change the registry while they are being dispatched:
    the first [Emit] still calls both listeners it started with, the second
    one calls the listener the first callback put in their place. *)
Example mutations_show_in_later_emits :
  (exec 1 0 mutating_client (fresh [])).1 = Finished ∧
  invoked_at 0 (trace (exec 1 0 mutating_client (fresh [])).2) =
    [(UserFn swap_listeners, {| Data := 7 |});
     (UserFn count_second, {| Data := 7 |});
     (UserFn (λ _, bump "late" Done), {| Data := 8 |})] ∧
  vars (exec 1 0 mutating_client (fresh [])).2 !! "second" = Some 1 ∧
  vars (exec 1 0 mutating_client (fresh [])).2 !! "late" = Some 1.
Proof. vm_compute. done. Qed.

Lemma Emit_calls_snapshot_witness :
  Forall (λ l, emit_free (body_of (callback l) {| Data := 7 |}))
         (listeners_of "e" (em (two_on_e 0))) ∧
  (Emit (exec 0) 0 "e" {| Data := 7 |} (two_on_e 0)).1 = Finished ∧
  listeners_of "none" (em (two_on_e 0)) = [] ∧
  Emit (exec 0) 0 "none" {| Data := 7 |} (two_on_e 0) = (Finished, two_on_e 0).
Proof.
  assert (Hfree : Forall (λ l, emit_free (body_of (callback l) {| Data := 7 |}))
                         (listeners_of "e" (em (two_on_e 0))))
    by (vm_compute; repeat constructor).
  assert (Hnil : listeners_of "none" (em (two_on_e 0)) = []) by (vm_compute; done).
  split; [done|]. split; [|split; [done|]].
  - apply (Emit_calls_snapshot 0 0 "e" {| Data := 7 |} (two_on_e 0)). done.
  - apply (Emit_calls_snapshot 0 0 "none" {| Data := 7 |} (two_on_e 0)). done.
Defined.

Lemma Emit_in_registration_order_witness :
  room_for (len [noop; count_second]) "e" (em (two_on_e 4)) ∧
  ∃ t,
    trace (exec 1 0 (register_all "e" [noop; count_second]
                       (DoEmit "e" {| Data := 7 |} Done)) (two_on_e 4)).2
      = trace (two_on_e 4) ++ t ∧
    invoked_at 0 t =
      calls [UserFn noop; UserFn noop; UserFn noop; UserFn count_second]
            {| Data := 7 |}.
Proof.
  assert (Hroom : room_for (len [noop; count_second]) "e" (em (two_on_e 4)))
    by (right; vm_compute; discriminate).
  split; [done|].
  destruct (Emit_in_registration_order 0 0 "e" [noop; count_second]
              {| Data := 7 |} (two_on_e 4)) as [_ H].
  destruct (H Hroom) as (t & Ht & _ & Hall & _).
  exists t. split; [done|]. apply Hall. vm_compute. done.
Defined.

Lemma ids_distinct_until_wrap_witness :
  reachable (exec 2 0 reentrant_once (fresh [])).2 ∧
  len (issued (exec 2 0 reentrant_once (fresh [])).2) < 2 ^ 64 ∧
  NoDup (issued (exec 2 0 reentrant_once (fresh [])).2) ∧
  0 ∉ issued (exec 2 0 reentrant_once (fresh [])).2.
Proof.
  assert (Hr : reachable (exec 2 0 reentrant_once (fresh [])).2)
    by apply reachable_run.
  assert (Hlen : len (issued (exec 2 0 reentrant_once (fresh [])).2) < 2 ^ 64)
    by (vm_compute; done).
  split; [done|]. split; [done|].
  exact (ids_distinct_until_wrap _ Hr Hlen).
Defined.

Lemma registry_keys_nonempty_witness :
  reachable (two_on_e 0) ∧
  events (em (two_on_e 0)) !! "e"
    = Some [{| id := 1; callback := UserFn noop |};
            {| id := 2; callback := UserFn noop |}] ∧
  1 ≤ (Count "e" (em (two_on_e 0))).1.
Proof.
  assert (Hr : reachable (two_on_e 0)) by apply two_on_e_reachable.
  assert (Hev : events (em (two_on_e 0)) !! "e"
                = Some [{| id := 1; callback := UserFn noop |};
                        {| id := 2; callback := UserFn noop |}])
    by (vm_compute; done).
  split; [done|]. split; [done|].
  destruct (registry_keys_nonempty (two_on_e 0) "e") as [H _].
  exact (proj2 (H Hr _ Hev)).
Defined.

Lemma Off_removes_one_witness :
  registry_ok (em (two_on_e 0)) ∧
  1 ∈ id <$> listeners_of "e" (em (two_on_e 0)) ∧
  (∃ l1 x l2,
     listeners_of "e" (em (two_on_e 0)) = l1 ++ x :: l2 ∧ id x = 1 ∧
     listeners_of "e" (Off "e" 1 (em (two_on_e 0))) = l1 ++ l2 ∧
     (Count "e" (Off "e" 1 (em (two_on_e 0)))).1
       = (Count "e" (em (two_on_e 0))).1 - 1) ∧
  (3 ∉ (id <$> listeners_of "e" (em (two_on_e 0)))) ∧
  Off "e" 3 (em (two_on_e 0)) = em (two_on_e 0).
Proof.
  assert (Hok : registry_ok (em (two_on_e 0)))
    by apply reachable_registry_ok, two_on_e_reachable.
  assert (Hin : 1 ∈ id <$> listeners_of "e" (em (two_on_e 0)))
    by (vm_compute; by left).
  assert (Hnot : 3 ∉ (id <$> listeners_of "e" (em (two_on_e 0)))).
  { vm_compute. intros H. repeat (inversion H as [|? ? ? H']; clear H; rename H' into H). }
  split; [done|]. split; [done|]. split; [|split; [done|]].
  - destruct (Off_removes_one (em (two_on_e 0)) "e" 1 Hok) as [H _].
    destruct (H Hin) as (l1 & x & l2 & Hls & Hx & _ & Hoff & Hcount & _).
    exists l1, x, l2. done.
  - destruct (Off_removes_one (em (two_on_e 0)) "e" 3 Hok) as [_ H].
    exact (H Hnot).
Defined.

Lemma On_failure_atomic_witness :
  (On "e" (UserFn noop) (em (two_on_e 2))).1.2 ≠ None ∧
  On "e" (UserFn noop) (em (two_on_e 2))
    = ((0, Some (limit_error "e")), em (two_on_e 2)) ∧
  reachable (two_on_e 2) ∧
  len (issued (two_on_e 2)) < 2 ^ 63 - 1 ∧
  (∀ i, i ∈ issued (two_on_e 2) → 1 ≤ i) ∧
  (∀ event' l, l ∈ listeners_of event' (em (two_on_e 2)) → 1 ≤ id l).
Proof.
  assert (Herr : (On "e" (UserFn noop) (em (two_on_e 2))).1.2 ≠ None)
    by (vm_compute; discriminate).
  assert (Hr : reachable (two_on_e 2)) by apply two_on_e_reachable.
  assert (Hlen : len (issued (two_on_e 2)) < 2 ^ 63 - 1) by (vm_compute; done).
  destruct (On_failure_atomic (two_on_e 2) "e" (UserFn noop) noop)
    as (Hfail & _ & Hids).
  destruct (Hids Hr Hlen) as (Hiss & Hlive & _).
  split; [done|]. split; [by apply Hfail|]. done.
Defined.

Lemma once_runs_once_witness :
  reachable one_once ∧
  listeners_of "e" (em one_once)
    = [] ++ {| id := 1; callback := OnceFn "e" 0 count_second |} :: [] ∧
  len (issued (exec 1 0 (DoEmit "e" {| Data := 7 |}
                           (DoEmit "e" {| Data := 8 |} Done)) one_once).2)
    < 2 ^ 64 ∧
  once_count 0 (trace (exec 1 0 (DoEmit "e" {| Data := 7 |}
                                   (DoEmit "e" {| Data := 8 |} Done)) one_once).2)
    = S (once_count 0 (trace one_once)) ∧
  gone 0 (exec 1 0 (DoEmit "e" {| Data := 7 |}
                      (DoEmit "e" {| Data := 8 |} Done)) one_once).2.
Proof.
  assert (Hr : reachable one_once) by apply reachable_run.
  assert (Hls : listeners_of "e" (em one_once)
                = [] ++ {| id := 1; callback := OnceFn "e" 0 count_second |} :: [])
    by (vm_compute; done).
  assert (Hlen : len (issued (exec 1 0 (DoEmit "e" {| Data := 7 |}
                             (DoEmit "e" {| Data := 8 |} Done)) one_once).2)
                 < 2 ^ 64) by (vm_compute; done).
  split; [done|]. split; [done|]. split; [done|].
  exact (once_runs_once one_once "e" 0 count_second
           {| id := 1; callback := OnceFn "e" 0 count_second |} [] []
           {| Data := 7 |} 0 0 (DoEmit "e" {| Data := 8 |} Done)
           Hr Hls eq_refl (Forall_nil_2 _) Hlen).
Defined.

Lemma live_ids_distinct_witness :
  reachable (two_on_e 0) ∧ len (issued (two_on_e 0)) < 2 ^ 64 ∧
  ∀ event, NoDup (id <$> listeners_of event (em (two_on_e 0))).
Proof.
  assert (Hr : reachable (two_on_e 0)) by apply two_on_e_reachable.
  assert (Hlen : len (issued (two_on_e 0)) < 2 ^ 64) by (vm_compute; done).
  split; [done|]. split; [done|].
  exact (proj1 (live_ids_distinct (two_on_e 0) Hr Hlen)).
Defined.

(** ** The order in which ids are handed out *)

Lemma seq_ids_lookup n k :
  (k < n)%nat → (Z.of_nat <$> seq 1 n) !! k = Some (Z.of_nat k + 1).
Proof.
  intros Hk. rewrite list_lookup_fmap, lookup_seq_lt by done. simpl.
  f_equal. lia.
Qed.

(** X3.  An emitter hands out its ids in order: as long as fewer than
    2^63 - 1 registrations have succeeded, the ids returned so far are
    1, 2, ..., n in that order, the counter is n, and the next registration
    that succeeds returns n + 1.  A registration that fails uses up no id. *)
Theorem ids_sequential (w : World) :
  reachable w → len (issued w) < 2 ^ 63 - 1 →
  issued w = Z.of_nat <$> seq 1 (length (issued w)) ∧
  nextID (em w) = len (issued w) ∧
  (∀ event cb, (On event cb (em w)).1.2 = None →
     (On event cb (em w)).1.1 = len (issued w) + 1) ∧
  (∀ event cb, (On event cb (em w)).1.2 ≠ None →
     nextID (On event cb (em w)).2 = len (issued w)).
Proof.
  intros Hr Hlen. destruct (reachable_ids_ok w Hr) as [Hc Hi _].
  unfold len in *.
  assert (Hn : nextID (em w) = Z.of_nat (length (issued w))).
  { rewrite Hc. apply int_wrap_small. unfold int_min, int_max. lia. }
  split; [|split; [done|split]].
  - apply list_eq. intros k.
    destruct (decide (k < length (issued w))%nat) as [Hk|Hk].
    + rewrite (Hi k Hk), seq_ids_lookup by done. f_equal.
      apply int_wrap_small. unfold int_min, int_max. lia.
    + rewrite !lookup_ge_None_2; [done| |lia].
      rewrite length_fmap, length_seq. lia.
  - intros event cb Hok. destruct (at_limit event (em w)) eqn:E.
    + by rewrite (On_at_limit _ _ _ E) in Hok.
    + rewrite (On_below_limit _ _ _ E). simpl. unfold int_incr. rewrite Hn.
      apply int_wrap_small. unfold int_min, int_max. lia.
  - intros event cb Herr. apply On_error_iff in Herr.
    by rewrite (On_at_limit _ _ _ Herr).
Qed.

(** ** The limit in reachable states *)

Lemma Off_shorter event event' target e :
  len (listeners_of event' (Off event target e)) ≤ len (listeners_of event' e).
Proof.
  destruct (decide (event = event')) as [<-|Hne];
    [|by rewrite Off_listeners_other].
  destruct (Off_slice event target e)
    as [[_ ->]|(l1 & x & l2 & -> & _ & _ & ->)]; [done|].
  unfold len. rewrite !length_app. simpl. lia.
Qed.

Lemma within_limit_closed :
  step_closed (λ w, 0 < maxListeners (em w) →
                    ∀ event, len (listeners_of event (em w)) ≤ maxListeners (em w))
              (λ _, True) 0.
Proof.
  assert (HOn : ∀ e event cb,
            (0 < maxListeners e →
             ∀ event', len (listeners_of event' e) ≤ maxListeners e) →
            0 < maxListeners (On event cb e).2 →
            ∀ event', len (listeners_of event' (On event cb e).2)
                      ≤ maxListeners (On event cb e).2).
  { intros e event cb H. rewrite On_maxListeners. intros Hpos event'.
    rewrite On_listeners. destruct (decide (event = event')) as [<-|]; [|by apply H].
    destruct (at_limit event e) eqn:E.
    - rewrite (On_at_limit _ _ _ E). simpl. by apply H.
    - rewrite (On_below_limit _ _ _ E). simpl.
      apply not_true_iff_false in E. rewrite at_limit_iff in E.
      unfold len in *. rewrite length_app. simpl. lia. }
  unfold step_closed. repeat apply conj.
  - intros w event cb H. rewrite em_note_issue. by apply HOn.
  - intros w event cb H. rewrite em_note_issue.
    destruct (Once_result event cb w) as [_ ->]. by apply HOn.
  - intros w event i H. simpl. rewrite Off_maxListeners. intros Hpos event'.
    etrans; [apply Off_shorter|]. by apply H.
  - intros w event H. simpl. intros Hpos event'. unfold RemoveAll.
    rewrite listeners_of_delete. destruct (decide (event = event')).
    + unfold len. simpl. lia.
    + by apply H.
  - done.
  - intros w event _. by apply Forall_forall.
  - done.
Qed.

(** X4.  The limit given to [NewZagro] is the limit for good, and when it
    is positive no event ever has more listeners than that, whatever mix of
    [On], [Once], removals and emits led to the state. *)
Theorem limit_never_exceeded (opts : list ZagroOptions) (fuel : nat)
    (p : prog) (event : string) :
  maxListeners (em (exec fuel 0 p (fresh opts)).2) = maxListeners (NewZagro opts) ∧
  (0 < maxListeners (NewZagro opts) →
   (Count event (em (exec fuel 0 p (fresh opts)).2)).1
     ≤ maxListeners (NewZagro opts)).
Proof.
  pose proof (exec_maxListeners fuel 0 p (fresh opts)) as Hmax.
  split; [done|]. intros Hpos.
  pose proof (closed_exec _ _ _ within_limit_closed fuel 0 p (fresh opts)
                ltac:(lia)) as H.
  cbv beta in H. rewrite Hmax in H. simpl in *. apply H; [|done].
  intros _ event'. unfold listeners_of. simpl. rewrite lookup_empty.
  unfold len. simpl. lia.
Qed.

Lemma On_all_unlimited event cbs :
  ∀ e, maxListeners e ≤ 0 →
  Forall (λ err, err = None) (On_all event cbs e).1 ∧
  len (listeners_of event (On_all event cbs e).2)
    = len (listeners_of event e) + len cbs ∧
  maxListeners (On_all event cbs e).2 = maxListeners e.
Proof.
  induction cbs as [|cb rest IH]; intros e Hmax; simpl.
  - split; [done|]. unfold len; simpl. split; [lia | done].
  - assert (E : at_limit event e = false).
    { apply not_true_is_false. rewrite at_limit_iff. lia. }
    pose proof (On_listeners event event cb e) as Hls.
    pose proof (On_maxListeners event cb e) as Hm.
    rewrite decide_True in Hls by done.
    assert (Hok : (On event cb e).1.2 = None)
      by (by rewrite (On_below_limit _ _ _ E)).
    rewrite Hok in Hls.
    destruct (IH (On event cb e).2) as (Hall & Hlen & Hmax'); [by rewrite Hm|].
    split; [by constructor|]. split; [|congruence].
    rewrite Hlen, Hls. unfold len. rewrite length_app. simpl. lia.
Qed.

(** X5.  [NewZagro] reads the first of its options only, and none means
    limit 0.  With a limit that is zero or negative the test in [On] never
    fires: any number of registrations on one event all succeed. *)
Theorem no_limit_when_not_positive (o : ZagroOptions) (rest : list ZagroOptions)
    (e : Zagro) (event : string) (cbs : list ZagroCallback) :
  NewZagro (o :: rest) = NewZagro [o] ∧
  maxListeners (NewZagro []) = 0 ∧
  (maxListeners e ≤ 0 →
   Forall (λ err, err = None) (On_all event cbs e).1 ∧
   (Count event (On_all event cbs e).2).1 = (Count event e).1 + len cbs).
Proof.
  split; [done|]. split; [done|]. intros Hmax.
  destruct (On_all_unlimited event cbs e Hmax) as (Hall & Hlen & _). done.
Qed.

(** ** CountAll as an account of the registry *)

Lemma fold_count_insert_new (m : gmap string (list listener)) event ls :
  m !! event = None →
  map_fold (λ (_ : string) (l : list listener) (n : Z), n + len l) 0 (<[event := ls]> m)
  = map_fold (λ (_ : string) (l : list listener) (n : Z), n + len l) 0 m + len ls.
Proof. intros Hnone. rewrite map_fold_insert_L; [done | intros; lia | done]. Qed.

Lemma CountAll_delete e event n m :
  (CountAll {| events := delete event (events e); nextID := n;
               maxListeners := m |}).1
  = (CountAll e).1 - len (listeners_of event e).
Proof.
  simpl. unfold listeners_of. destruct (events e !! event) as [old|] eqn:Hev; simpl.
  - rewrite <-(insert_delete_id (events e) event old Hev) at 2.
    rewrite fold_count_insert_new by apply lookup_delete_eq. lia.
  - rewrite delete_id by done. unfold len. simpl. lia.
Qed.

Lemma CountAll_insert e event ls n m :
  (CountAll {| events := <[event := ls]> (events e); nextID := n;
               maxListeners := m |}).1
  = (CountAll e).1 - len (listeners_of event e) + len ls.
Proof.
  rewrite <-(CountAll_delete e event n m). simpl.
  rewrite <-(insert_delete_eq (events e)).
  by rewrite fold_count_insert_new by apply lookup_delete_eq.
Qed.

Lemma len_app {A} (l1 l2 : list A) : len (l1 ++ l2) = len l1 + len l2.
Proof. unfold len. rewrite length_app. lia. Qed.

Lemma CountAll_nonneg e : 0 ≤ (CountAll e).1.
Proof.
  simpl. apply (map_fold_weak_ind (λ n _, 0 ≤ n)); [done|].
  intros event ls m n _ Hn. unfold len. lia.
Qed.

(** X6.  [CountAll] keeps account of the registry: a registration that
    succeeds raises it by exactly 1 and one that fails leaves it; [Off]
    lowers it by 1 when it finds the id and leaves it otherwise;
    [RemoveAll(event)] lowers it by [Count(event)]; and it is never less
    than the count of any one event. *)
Theorem CountAll_accounts (e : Zagro) (event : string) (cb : ZagroCallback)
    (target : Z) :
  (CountAll (On event cb e).2).1 =
    (CountAll e).1 + (if (On event cb e).1.2 is None then 1 else 0) ∧
  (CountAll (Off event target e)).1 =
    (CountAll e).1
    - (if decide (target ∈ id <$> listeners_of event e) then 1 else 0) ∧
  (CountAll (RemoveAll event e)).1 = (CountAll e).1 - (Count event e).1 ∧
  0 ≤ (Count event e).1 ≤ (CountAll e).1.
Proof.
  split; [|split; [|split]].
  - destruct (at_limit event e) eqn:E.
    + rewrite (On_at_limit _ _ _ E). cbn [fst snd]. lia.
    + rewrite (On_below_limit _ _ _ E). cbn [fst snd].
      rewrite CountAll_insert, len_app. change (len [_]) with 1. lia.
  - destruct (decide (target ∈ id <$> listeners_of event e)) as [Hin|Hnot].
    + destruct (elem_of_ids_split _ _ Hin) as (l1 & x & l2 & Hls & Hx & Hl1).
      assert (Hev : events e !! event = Some (l1 ++ x :: l2))
        by (unfold listeners_of in Hls; destruct (events e !! event); simpl in *;
            [congruence | by destruct l1]).
      rewrite (Off_match _ _ _ _ _ _ Hev Hx Hl1).
      destruct (decide (l1 ++ l2 = [])) as [Hnil|Hne].
      * rewrite CountAll_delete, Hls.
        apply app_eq_nil in Hnil as [-> ->]. cbn [app].
        change (len [x]) with 1. lia.
      * rewrite CountAll_insert, Hls, !len_app.
        change (x :: l2) with ([x] ++ l2). rewrite len_app.
        change (len [x]) with 1. lia.
    + destruct (events e !! event) as [ls|] eqn:Hev;
        [|rewrite Off_absent by done; lia].
      assert (Hls : listeners_of event e = ls)
        by (unfold listeners_of; by rewrite Hev).
      assert (Hno : Forall (λ y, id y ≠ target) ls).
      { apply Forall_forall. intros y Hy Heq. apply Hnot. rewrite Hls.
        apply list_elem_of_fmap. eauto. }
      destruct ls as [|y ls]; [|rewrite (Off_no_match _ _ _ _ Hev) by done; lia].
      unfold Off. rewrite Hev. cbn [find_id]. rewrite Hls.
      change (len (@nil listener) =? 0) with true. cbv iota.
      rewrite CountAll_delete, Hls. change (len (@nil listener)) with 0. lia.
  - unfold RemoveAll. rewrite CountAll_delete. cbn [fst Count]. lia.
  - pose proof (CountAll_delete e event (nextID e) (maxListeners e)) as Hdel.
    pose proof (CountAll_nonneg
                  {| events := delete event (events e); nextID := nextID e;
                     maxListeners := maxListeners e |}) as Hpos.
    cbn [fst Count]. unfold len at 1. lia.
Qed.

(** ** Registering and removing *)

(** The id [On] is about to hand out is not the id of any listener in the
    map, as long as the counter has not wrapped. *)
Lemma next_id_not_live w event l :
  ids_ok w → len (issued w) < 2 ^ 64 →
  l ∈ listeners_of event (em w) → id l ≠ int_incr (nextID (em w)).
Proof.
  intros [Hc Hi Hl] Hlen Hin Heq.
  apply Hl in Hin. apply list_elem_of_lookup in Hin as [k Hk].
  pose proof (lookup_lt_Some _ _ _ Hk) as Hklt.
  rewrite (Hi k Hklt) in Hk. injection Hk as Hk.
  unfold int_incr in Heq. rewrite Hc, int_wrap_idem_add in Heq.
  rewrite Heq in Hk. unfold len in *.
  apply int_wrap_inj in Hk; lia.
Qed.

Lemma Off_not_registered event target e :
  registry_ok e → target ∉ (id <$> listeners_of event e) →
  Off event target e = e.
Proof.
  intros Hok Hnot. destruct (events e !! event) as [ls|] eqn:Hev;
    [|by apply Off_absent].
  apply (Off_no_match _ _ _ ls); [done | by eapply Hok |].
  apply Forall_forall. intros y Hy Heq. apply Hnot.
  unfold listeners_of. rewrite Hev. simpl. apply list_elem_of_fmap. eauto.
Qed.

Lemma On_then_Off_events w event cb :
  registry_ok (em w) → ids_ok w → len (issued w) < 2 ^ 64 →
  (On event cb (em w)).1.2 = None →
  events (Off event (On event cb (em w)).1.1 (On event cb (em w)).2)
    = events (em w).
Proof.
  intros Hreg Hids Hlen Hok.
  destruct (at_limit event (em w)) eqn:E;
    [by rewrite (On_at_limit _ _ _ E) in Hok|].
  rewrite (On_below_limit _ _ _ E). cbn [fst snd].
  set (l := {| id := int_incr (nextID (em w)); callback := cb |}).
  assert (Hfresh : Forall (λ y, id y ≠ int_incr (nextID (em w)))
                          (listeners_of event (em w))).
  { apply Forall_forall. intros y Hy. by eapply next_id_not_live. }
  rewrite (Off_match event (int_incr (nextID (em w))) _
             (listeners_of event (em w)) l []);
    [|apply lookup_insert_eq | done | done].
  cbn [events]. rewrite app_nil_r.
  destruct (decide (listeners_of event (em w) = [])) as [Hnil|Hne].
  - rewrite delete_insert_eq. apply delete_id.
    destruct (events (em w) !! event) as [ls|] eqn:Hev; [|done].
    unfold listeners_of in Hnil. rewrite Hev in Hnil. simpl in Hnil. subst ls.
    by apply Hreg in Hev.
  - rewrite insert_insert_eq. apply insert_id.
    unfold listeners_of in *. destruct (events (em w) !! event); simpl in *; done.
Qed.

(** X7.  Registering and then removing by the id that came back gives the
    registry back exactly as it was (the counter alone has moved), for [On]
    and for [Once] alike, in every reachable state in which the counter has
    not wrapped. *)
Theorem On_then_Off_restores (w : World) (event : string) (cb : ZagroCallback)
    (f : ZagroMessage → prog) :
  reachable w → len (issued w) < 2 ^ 64 →
  ((On event cb (em w)).1.2 = None →
   events (Off event (On event cb (em w)).1.1 (On event cb (em w)).2)
     = events (em w) ∧
   nextID (Off event (On event cb (em w)).1.1 (On event cb (em w)).2)
     = int_incr (nextID (em w))) ∧
  ((Once event f w).1.2 = None →
   events (Off event (Once event f w).1.1 (em (Once event f w).2))
     = events (em w)).
Proof.
  intros Hr Hlen.
  pose proof (reachable_registry_ok w Hr) as Hreg.
  pose proof (reachable_ids_ok w Hr) as Hids.
  split.
  - intros Hok. split; [by apply On_then_Off_events|].
    rewrite Off_nextID. destruct (at_limit event (em w)) eqn:E;
      [by rewrite (On_at_limit _ _ _ E) in Hok|].
    by rewrite (On_below_limit _ _ _ E).
  - destruct (Once_result event f w) as [-> ->]. by apply On_then_Off_events.
Qed.

(** X8.  [Off] needs the event the listener was registered under: with the
    id of a listener of another event, with the 0 that a failed
    registration returns, or with any id the emitter has not handed out,
    it removes nothing (reachable states, counter not wrapped). *)
Theorem Off_needs_event_and_id (w : World) (event : string) :
  reachable w → len (issued w) < 2 ^ 64 →
  (∀ event' l, l ∈ listeners_of event' (em w) → event' ≠ event →
     Off event (id l) (em w) = em w) ∧
  Off event 0 (em w) = em w ∧
  (∀ target, target ∉ issued w → Off event target (em w) = em w).
Proof.
  intros Hr Hlen.
  pose proof (reachable_registry_ok w Hr) as Hreg.
  pose proof (reachable_ids_ok w Hr) as Hids.
  destruct (reachable_live_ids_ok w Hr Hlen) as [_ Hap].
  assert (Hun : ∀ target, target ∉ issued w → Off event target (em w) = em w).
  { intros target Hnot. apply Off_not_registered; [done|].
    intros (y & -> & Hy)%list_elem_of_fmap. apply Hnot.
    destruct Hids as [_ _ Hl]. by eapply Hl. }
  split; [|split; [|done]].
  - intros event' l Hl Hne. apply Off_not_registered; [done|].
    intros (y & Heq & Hy)%list_elem_of_fmap. apply Hne. by eapply Hap.
  - apply Hun. by apply ids_ok_NoDup.
Qed.

(** ** Removals composed *)

Lemma Off_key event target e ls :
  events (Off event target e) !! event = Some ls → ls ≠ [].
Proof.
  unfold Off. destruct (events e !! event) as [old|] eqn:Hev; [|congruence].
  set (e1 := match find_id target old with Some _ => _ | None => _ end).
  destruct (len (listeners_of event e1) =? 0) eqn:E; simpl.
  - by rewrite lookup_delete_eq.
  - intros Hls ->. apply not_true_iff_false in E. apply E, len_zero.
    unfold listeners_of. by rewrite Hls.
Qed.

(** X9.  How removals compose.  [RemoveAll] twice is [RemoveAll] once; an
    [Off] before or after [RemoveAll] of the same event changes nothing of
    the outcome; and when the ids of the event are distinct, [Off] twice
    with one id is [Off] once. *)
Theorem removals_compose (e : Zagro) (event : string) (target : Z) :
  RemoveAll event (RemoveAll event e) = RemoveAll event e ∧
  Off event target (RemoveAll event e) = RemoveAll event e ∧
  RemoveAll event (Off event target e) = RemoveAll event e ∧
  (NoDup (id <$> listeners_of event e) →
   Off event target (Off event target e) = Off event target e).
Proof.
  split; [|split; [|split]].
  - unfold RemoveAll. simpl. by rewrite delete_delete_eq.
  - apply Off_absent. simpl. apply lookup_delete_eq.
  - unfold RemoveAll. rewrite Off_nextID, Off_maxListeners. f_equal.
    destruct (events e !! event) as [ls|] eqn:Hev; [|by rewrite Off_absent].
    destruct (find_id target ls) as [i|] eqn:E.
    + apply find_id_Some in E as (l1 & x & l2 & -> & _ & Hx & Hl1 & _).
      rewrite (Off_match _ _ _ _ _ _ Hev Hx Hl1). simpl.
      destruct (decide (l1 ++ l2 = [])).
      * by rewrite delete_delete_eq.
      * by rewrite delete_insert_eq.
    + apply find_id_None in E. destruct ls as [|y ls];
        [|by rewrite (Off_no_match _ _ _ _ Hev)].
      assert (Hnil : listeners_of event e = [])
        by (unfold listeners_of; by rewrite Hev).
      unfold Off. rewrite Hev. cbn [find_id]. rewrite Hnil.
      change (len (@nil listener) =? 0) with true. cbv iota. simpl.
      by rewrite delete_delete_eq.
  - intros Hnd.
    assert (Hgone : target ∉ (id <$> listeners_of event (Off event target e))).
    { destruct (Off_slice event target e)
        as [[Hno ->]|(l1 & x & l2 & Hls & Hx & _ & ->)]; [done|].
      rewrite Hls, fmap_app in Hnd. simpl in Hnd.
      apply NoDup_app in Hnd as (_ & H12 & H2). apply NoDup_cons in H2 as [Hx2 _].
      rewrite fmap_app, elem_of_app. intros [Hin|Hin].
      - apply (H12 target Hin). rewrite Hx. by left.
      - apply Hx2. by rewrite Hx. }
    destruct (events (Off event target e) !! event) as [ls|] eqn:Hev;
      [|by apply Off_absent].
    apply (Off_no_match _ _ _ ls); [done | by eapply Off_key |].
    apply Forall_forall. intros y Hy Heq. apply Hgone.
    unfold listeners_of. rewrite Hev. simpl. apply list_elem_of_fmap. eauto.
Qed.

(** ** What [Emit] itself leaves alone *)

Lemma emitter_free_run fuel d p :
  emitter_free p → ∀ w,
  (exec fuel d p w).1 = Finished ∧
  em (exec fuel d p w).2 = em w ∧
  cells (exec fuel d p w).2 = cells w ∧
  trace (exec fuel d p w).2 = trace w.
Proof.
  induction 1 as [|x k _ IH|x v k _ IH]; intros w.
  - by rewrite exec_Done.
  - rewrite exec_DoLoad. apply IH.
  - rewrite exec_DoStore. apply (IH (with_vars (<[x := v]> (vars w)) w)).
Qed.

Lemma dispatch_plain fuel d msg (ls : list listener) :
  Forall (λ l, ∃ body, callback l = UserFn body ∧ emitter_free (body msg)) ls →
  ∀ w, (dispatch (exec fuel) d (callback <$> ls) msg w).1 = Finished ∧
       em (dispatch (exec fuel) d (callback <$> ls) msg w).2 = em w ∧
       cells (dispatch (exec fuel) d (callback <$> ls) msg w).2 = cells w ∧
       trace (dispatch (exec fuel) d (callback <$> ls) msg w).2
         = trace w ++ ((λ l, Invoke d (callback l) msg) <$> ls).
Proof.
  induction 1 as [|l ls (body & Hcb & Hfree) _ IH]; intros w; simpl.
  - by rewrite app_nil_r.
  - rewrite Hcb. unfold invoke.
    destruct (emitter_free_run fuel (S d) (body msg) Hfree
                (record (Invoke d (UserFn body) msg) w))
      as (Hfin & Hem & Hcells & Htr).
    destruct (exec fuel (S d) (body msg) (record (Invoke d (UserFn body) msg) w))
      as [o w1]. simpl in Hfin, Hem, Hcells, Htr. subst o.
    destruct (IH w1) as (Hfin' & Hem' & Hcells' & Htr'). cbv beta iota.
    split; [exact Hfin'|]. split; [by rewrite <-Hem|].
    split; [by rewrite <-Hcells|].
    etrans; [exact Htr'|]. rewrite Htr, <-app_assoc. done.
Qed.

(** X10.  [Emit] itself changes nothing in the emitter: when the listeners
    of the event are plain callbacks that make no call on the emitter, it
    returns with the registry, the counter and the limit as they were,
    having called each of them once, in order. *)
Theorem Emit_leaves_emitter_alone (fuel d : nat) (event : string)
    (msg : ZagroMessage) (w : World) :
  Forall (λ l, ∃ body, callback l = UserFn body ∧ emitter_free (body msg))
         (listeners_of event (em w)) →
  (Emit (exec fuel) d event msg w).1 = Finished ∧
  em (Emit (exec fuel) d event msg w).2 = em w ∧
  cells (Emit (exec fuel) d event msg w).2 = cells w ∧
  trace (Emit (exec fuel) d event msg w).2
    = trace w ++ ((λ l, Invoke d (callback l) msg) <$> listeners_of event (em w)).
Proof. intros Hall. unfold Emit. by apply dispatch_plain. Qed.

(** ** One event at a time *)

Lemma invoked_app t1 t2 : invoked (t1 ++ t2) = invoked t1 ++ invoked t2.
Proof. unfold invoked. apply omap_app. Qed.

Lemma invoked_note_issue r w : invoked (trace (note_issue r w)) = invoked (trace w).
Proof.
  unfold note_issue. destruct r.2; [done|]. simpl.
  rewrite invoked_app. simpl. apply app_nil_r.
Qed.

Lemma emit_free_invoked fuel d p :
  emit_free p → ∀ w, invoked (trace (exec fuel d p w).2) = invoked (trace w).
Proof.
  induction 1 as [|event cb k _ IH|event cb k _ IH|event i k _ IH|event k _ IH
                  |event k _ IH|k _ IH|x k _ IH|x v k _ IH]; intros w.
  - by rewrite exec_Done.
  - rewrite exec_DoOn, IH. by rewrite invoked_note_issue.
  - rewrite exec_DoOnce, IH. by rewrite invoked_note_issue, Once_trace.
  - by rewrite exec_DoOff, IH.
  - by rewrite exec_DoRemoveAll, IH.
  - by rewrite exec_DoCount, IH.
  - by rewrite exec_DoCountAll, IH.
  - by rewrite exec_DoLoad, IH.
  - by rewrite exec_DoStore, IH.
Qed.

Lemma dispatch_invoked fuel d msg callbacks :
  Forall (λ cb, emit_free (body_of cb msg)) callbacks →
  ∀ w, invoked (trace (dispatch (exec fuel) d callbacks msg w).2)
       = invoked (trace w) ++ calls callbacks msg.
Proof.
  induction 1 as [|cb rest Hcb Hrest IH]; intros w; simpl.
  - by rewrite app_nil_r.
  - assert (Hfin : (invoke (exec fuel) d cb msg (record (Invoke d cb msg) w)).1
                   = Finished).
    { destruct cb as [body|event c body]; unfold invoke; simpl in Hcb;
        by apply emit_free_finishes. }
    assert (Hinv : invoked (trace (invoke (exec fuel) d cb msg
                                     (record (Invoke d cb msg) w)).2)
                   = invoked (trace w) ++ [(cb, msg)]).
    { destruct cb as [body|event c body]; unfold invoke; simpl in Hcb;
        rewrite emit_free_invoked by done; simpl; by rewrite invoked_app. }
    destruct (invoke (exec fuel) d cb msg (record (Invoke d cb msg) w)) as [o w1].
    simpl in Hfin, Hinv. subst o. rewrite IH, Hinv. by rewrite <-app_assoc.
Qed.

(** X11.  Events are dispatched one at a time: when none of the listeners
    of an event calls [Emit] from its callback, an [Emit] on that event
    calls the callbacks of that event, each once and in order, and no other
    callback, at any depth -- a callback registered on other events only is
    not called. *)
Theorem Emit_calls_own_event_only (fuel d : nat) (event : string)
    (msg : ZagroMessage) (w : World) :
  Forall (λ l, emit_free (body_of (callback l) msg)) (listeners_of event (em w)) →
  invoked (trace (Emit (exec fuel) d event msg w).2)
    = invoked (trace w) ++ calls (callback <$> listeners_of event (em w)) msg ∧
  ∀ cb msg', cb ∉ (callback <$> listeners_of event (em w)) →
             (cb, msg') ∉ calls (callback <$> listeners_of event (em w)) msg.
Proof.
  intros Hfree. split.
  - unfold Emit. apply dispatch_invoked.
    apply Forall_forall. intros cb (l & -> & Hl)%list_elem_of_fmap.
    rewrite Forall_forall in Hfree. by apply Hfree.
  - intros cb msg' Hnot (cb' & Heq & Hin)%list_elem_of_fmap.
    injection Heq as -> _. done.
Qed.

(** ** What an [Emit] leaves of an event *)

Lemma listeners_of_Some e event ls :
  listeners_of event e = ls → ls ≠ [] → events e !! event = Some ls.
Proof.
  unfold listeners_of. destruct (events e !! event); simpl; congruence.
Qed.

(** Dispatching the rest of an event's slice, callbacks that make no call
    on the emitter: the plain listeners stay, each once-listener goes. *)
Lemma dispatch_consumes fuel d event msg (rest : list listener) :
  Forall (λ l, emitter_free (body_of (callback l) msg)) rest →
  ∀ (pre : list listener) w,
  listeners_of event (em w) = pre ++ rest →
  NoDup (id <$> pre ++ rest) →
  (∀ l ev c f, l ∈ rest → callback l = OnceFn ev c f →
               ev = event ∧ cells w !! c = Some (id l)) →
  (dispatch (exec fuel) d (callback <$> rest) msg w).1 = Finished ∧
  listeners_of event (em (dispatch (exec fuel) d (callback <$> rest) msg w).2)
    = pre ++ filter (λ l, plain l = true) rest ∧
  (∀ event', event' ≠ event →
     listeners_of event' (em (dispatch (exec fuel) d (callback <$> rest) msg w).2)
     = listeners_of event' (em w)) ∧
  nextID (em (dispatch (exec fuel) d (callback <$> rest) msg w).2) = nextID (em w).
Proof.
  induction 1 as [|l rest Hfree _ IH]; intros pre w Hls Hnd Hok.
  - simpl. by rewrite filter_nil.
  - cbn [fmap list_fmap dispatch].
    change (list_fmap listener ZagroCallback callback rest) with (callback <$> rest).
    destruct (callback l) as [body|ev c body] eqn:Hcb; unfold invoke; simpl in Hfree.
    + (* a plain listener: nothing changes, it stays *)
      destruct (emitter_free_run fuel (S d) (body msg) Hfree
                  (record (Invoke d (UserFn body) msg) w))
        as (Hfin & Hem & Hcells & _).
      destruct (exec fuel (S d) (body msg) (record (Invoke d (UserFn body) msg) w))
        as [o w1]. simpl in Hfin, Hem, Hcells. subst o.
      destruct (IH (pre ++ [l]) w1) as (Hfin' & Hls' & Hother & Hn).
      * by rewrite Hem, <-app_assoc.
      * by rewrite <-app_assoc.
      * intros l' ev c f Hl'. rewrite Hcells. apply Hok. by right.
      * split; [done|]. split; [|split].
        -- rewrite Hls', <-app_assoc. rewrite filter_cons_True; [done|].
           unfold plain. by rewrite Hcb.
        -- intros event' Hne. by rewrite Hother, Hem.
        -- by rewrite Hn, Hem.
    + (* a once-listener: its wrapper removes it *)
      destruct (Hok l ev c body ltac:(by left) Hcb) as [-> Hcell].
      change (cells (record (Invoke d (OnceFn event c body) msg) w)) with (cells w).
      change (em (record (Invoke d (OnceFn event c body) msg) w)) with (em w).
      rewrite Hcell. change (default 0 (Some (id l))) with (id l).
      set (w0 := with_em (Off event (id l) (em w))
                   (record (Invoke d (OnceFn event c body) msg) w)).
      assert (Hpre : Forall (λ y, id y ≠ id l) pre).
      { rewrite fmap_app in Hnd. apply NoDup_app in Hnd as (_ & H12 & _).
        apply Forall_forall. intros y Hy Heq. apply (H12 (id y)).
        - apply list_elem_of_fmap. eauto.
        - rewrite Heq. simpl. by left. }
      assert (Hev : events (em w) !! event = Some (pre ++ l :: rest))
        by (apply listeners_of_Some; [done | by destruct pre]).
      assert (Hls0 : listeners_of event (em w0) = pre ++ rest).
      { subst w0. simpl. rewrite (Off_match _ _ _ _ _ _ Hev eq_refl Hpre).
        unfold listeners_of. simpl. destruct (decide (pre ++ rest = [])) as [->|].
        - by rewrite lookup_delete_eq.
        - by rewrite lookup_insert_eq. }
      destruct (emitter_free_run fuel (S d) (body msg) Hfree w0)
        as (Hfin & Hem & Hcells & _).
      destruct (exec fuel (S d) (body msg) w0) as [o w1].
      simpl in Hfin, Hem, Hcells. subst o.
      destruct (IH pre w1) as (Hfin' & Hls' & Hother & Hn).
      * by rewrite Hem.
      * rewrite fmap_app in *. simpl in Hnd.
        apply NoDup_app in Hnd as (H1 & H12 & H2). apply NoDup_cons in H2 as [_ H2].
        apply NoDup_app. split; [done|]. split; [|done].
        intros i Hi Hi2. apply (H12 i Hi). by right.
      * intros l' ev c' f Hl'. rewrite Hcells. apply Hok. by right.
      * split; [done|]. split; [|split].
        -- rewrite Hls'. rewrite filter_cons_False; [done|].
           unfold plain. by rewrite Hcb.
        -- intros event' Hne. rewrite Hother, Hem by done.
           subst w0. simpl. by apply Off_listeners_other.
        -- rewrite Hn, Hem. subst w0. simpl. apply Off_nextID.
Qed.

(** X12.  An [Emit] uses up the once-listeners of its event and keeps the
    others: in a reachable state with the counter not wrapped, when the
    callbacks of the event make no call on the emitter, the event's
    listeners after the [Emit] are the ones registered through [On], in the
    order they had; no other event and no id is touched. *)
Theorem Emit_consumes_once_listeners (fuel d : nat) (event : string)
    (msg : ZagroMessage) (w : World) :
  reachable w → len (issued w) < 2 ^ 64 →
  Forall (λ l, emitter_free (body_of (callback l) msg)) (listeners_of event (em w)) →
  (Emit (exec fuel) d event msg w).1 = Finished ∧
  listeners_of event (em (Emit (exec fuel) d event msg w).2)
    = filter (λ l, plain l = true) (listeners_of event (em w)) ∧
  (∀ event', event' ≠ event →
     listeners_of event' (em (Emit (exec fuel) d event msg w).2)
     = listeners_of event' (em w)) ∧
  nextID (em (Emit (exec fuel) d event msg w).2) = nextID (em w).
Proof.
  intros Hr Hlen Hfree. unfold Emit.
  destruct (reachable_live_ids_ok w Hr Hlen) as [Hnd _].
  pose proof (reachable_once_ok w Hr) as Hok.
  apply (dispatch_consumes fuel d event msg _ Hfree [] w); [done | apply Hnd |].
  intros l ev c f Hl Hcb. by eapply Hok.
Qed.

(** ** The further theorems at concrete inputs *)

(** [TestMultipleEvents] passes on the model: each of the five listeners
    has run once. *)
Example TestMultipleEvents_passes :
  (exec 1 0 TestMultipleEvents (fresh [])).1 = Finished ∧
  (λ x, vars (exec 1 0 TestMultipleEvents (fresh [])).2 !! x)
    <$> ["event0"; "event1"; "event2"; "event3"; "event4"]
  = [Some 1; Some 1; Some 1; Some 1; Some 1].
Proof. vm_compute. done. Qed.

Lemma ids_sequential_witness :
  reachable mixed_on_e ∧ len (issued mixed_on_e) < 2 ^ 63 - 1 ∧
  issued mixed_on_e = Z.of_nat <$> seq 1 (length (issued mixed_on_e)) ∧
  nextID (em mixed_on_e) = len (issued mixed_on_e).
Proof.
  assert (Hr : reachable mixed_on_e) by apply reachable_run.
  assert (Hlen : len (issued mixed_on_e) < 2 ^ 63 - 1) by (vm_compute; done).
  destruct (ids_sequential mixed_on_e Hr Hlen) as (H1 & H2 & _).
  done.
Defined.

Lemma limit_never_exceeded_witness :
  0 < maxListeners (NewZagro [{| MaxListeners := 2 |}]) ∧
  (Count "e" (em (exec 0 0 (register_all "e" [noop; noop; noop] Done)
                    (fresh [{| MaxListeners := 2 |}])).2)).1
    ≤ maxListeners (NewZagro [{| MaxListeners := 2 |}]).
Proof.
  assert (Hpos : 0 < maxListeners (NewZagro [{| MaxListeners := 2 |}]))
    by (vm_compute; done).
  split; [done|].
  exact (proj2 (limit_never_exceeded [{| MaxListeners := 2 |}] 0
                  (register_all "e" [noop; noop; noop] Done) "e") Hpos).
Defined.

Lemma no_limit_when_not_positive_witness :
  maxListeners (NewZagro [{| MaxListeners := -1 |}]) ≤ 0 ∧
  Forall (λ err, err = None)
    (On_all "e" [UserFn noop; UserFn noop; UserFn noop]
       (NewZagro [{| MaxListeners := -1 |}])).1.
Proof.
  assert (Hmax : maxListeners (NewZagro [{| MaxListeners := -1 |}]) ≤ 0)
    by (vm_compute; discriminate).
  split; [done|].
  destruct (no_limit_when_not_positive {| MaxListeners := -1 |} []
              (NewZagro [{| MaxListeners := -1 |}]) "e"
              [UserFn noop; UserFn noop; UserFn noop]) as (_ & _ & H).
  exact (proj1 (H Hmax)).
Defined.

Lemma On_then_Off_restores_witness :
  reachable (two_on_e 0) ∧ len (issued (two_on_e 0)) < 2 ^ 64 ∧
  (On "e" (UserFn noop) (em (two_on_e 0))).1.2 = None ∧
  events (Off "e" (On "e" (UserFn noop) (em (two_on_e 0))).1.1
            (On "e" (UserFn noop) (em (two_on_e 0))).2)
    = events (em (two_on_e 0)).
Proof.
  assert (Hr : reachable (two_on_e 0)) by apply two_on_e_reachable.
  assert (Hlen : len (issued (two_on_e 0)) < 2 ^ 64) by (vm_compute; done).
  assert (Hok : (On "e" (UserFn noop) (em (two_on_e 0))).1.2 = None)
    by (vm_compute; done).
  split; [done|]. split; [done|]. split; [done|].
  exact (proj1 (proj1 (On_then_Off_restores (two_on_e 0) "e" (UserFn noop) noop
                         Hr Hlen) Hok)).
Defined.

Lemma Off_needs_event_and_id_witness :
  reachable (two_on_e 0) ∧ len (issued (two_on_e 0)) < 2 ^ 64 ∧
  {| id := 1; callback := UserFn noop |} ∈ listeners_of "e" (em (two_on_e 0)) ∧
  Off "f" 1 (em (two_on_e 0)) = em (two_on_e 0) ∧
  Off "e" 0 (em (two_on_e 0)) = em (two_on_e 0).
Proof.
  assert (Hr : reachable (two_on_e 0)) by apply two_on_e_reachable.
  assert (Hlen : len (issued (two_on_e 0)) < 2 ^ 64) by (vm_compute; done).
  assert (Hin : {| id := 1; callback := UserFn noop |}
                ∈ listeners_of "e" (em (two_on_e 0))) by (vm_compute; by left).
  split; [done|]. split; [done|]. split; [done|].
  destruct (Off_needs_event_and_id (two_on_e 0) "f" Hr Hlen) as (H1 & _ & _).
  destruct (Off_needs_event_and_id (two_on_e 0) "e" Hr Hlen) as (_ & H0 & _).
  split; [|done].
  exact (H1 "e" {| id := 1; callback := UserFn noop |} Hin ltac:(discriminate)).
Defined.

Lemma removals_compose_witness :
  NoDup (id <$> listeners_of "e" (em (two_on_e 0))) ∧
  Off "e" 1 (Off "e" 1 (em (two_on_e 0))) = Off "e" 1 (em (two_on_e 0)).
Proof.
  assert (Hnd : NoDup (id <$> listeners_of "e" (em (two_on_e 0)))).
  { apply (reachable_live_ids_ok (two_on_e 0)); [apply two_on_e_reachable|].
    vm_compute. done. }
  split; [done|].
  destruct (removals_compose (em (two_on_e 0)) "e" 1) as (_ & _ & _ & H).
  exact (H Hnd).
Defined.

Lemma Emit_leaves_emitter_alone_witness :
  Forall (λ l, ∃ body, callback l = UserFn body ∧ emitter_free (body {| Data := 7 |}))
         (listeners_of "e" (em (two_on_e 0))) ∧
  (Emit (exec 0) 0 "e" {| Data := 7 |} (two_on_e 0)).1 = Finished ∧
  em (Emit (exec 0) 0 "e" {| Data := 7 |} (two_on_e 0)).2 = em (two_on_e 0).
Proof.
  assert (Hall : Forall (λ l, ∃ body, callback l = UserFn body ∧
                                      emitter_free (body {| Data := 7 |}))
                        (listeners_of "e" (em (two_on_e 0)))).
  { vm_compute. repeat constructor; eexists; (split; [reflexivity | constructor]). }
  split; [done|].
  destruct (Emit_leaves_emitter_alone 0 0 "e" {| Data := 7 |} (two_on_e 0) Hall)
    as (Hfin & Hem & _).
  done.
Defined.

Lemma Emit_calls_own_event_only_witness :
  Forall (λ l, emit_free (body_of (callback l) {| Data := 7 |}))
         (listeners_of "e" (em mixed_on_e)) ∧
  invoked (trace (Emit (exec 0) 0 "e" {| Data := 7 |} mixed_on_e).2)
    = invoked (trace mixed_on_e)
      ++ calls (callback <$> listeners_of "e" (em mixed_on_e)) {| Data := 7 |}.
Proof.
  assert (Hfree : Forall (λ l, emit_free (body_of (callback l) {| Data := 7 |}))
                         (listeners_of "e" (em mixed_on_e))).
  { vm_compute. repeat (constructor || intro). }
  split; [done|].
  exact (proj1 (Emit_calls_own_event_only 0 0 "e" {| Data := 7 |} mixed_on_e Hfree)).
Defined.

Lemma Emit_consumes_once_listeners_witness :
  reachable mixed_on_e ∧ len (issued mixed_on_e) < 2 ^ 64 ∧
  Forall (λ l, emitter_free (body_of (callback l) {| Data := 7 |}))
         (listeners_of "e" (em mixed_on_e)) ∧
  (Count "e" (em mixed_on_e)).1 = 3 ∧
  listeners_of "e" (em (Emit (exec 0) 0 "e" {| Data := 7 |} mixed_on_e).2)
    = filter (λ l, plain l = true) (listeners_of "e" (em mixed_on_e)).
Proof.
  assert (Hr : reachable mixed_on_e) by apply reachable_run.
  assert (Hlen : len (issued mixed_on_e) < 2 ^ 64) by (vm_compute; done).
  assert (Hfree : Forall (λ l, emitter_free (body_of (callback l) {| Data := 7 |}))
                         (listeners_of "e" (em mixed_on_e))).
  { vm_compute. repeat (constructor || intro). }
  split; [done|]. split; [done|]. split; [done|]. split; [vm_compute; done|].
  destruct (Emit_consumes_once_listeners 0 0 "e" {| Data := 7 |} mixed_on_e
              Hr Hlen Hfree) as (_ & H & _).
  exact H.
Defined.
